(** * commit-buddy: a shallow embedding of [server.py]

    The server exposes four tools over a git working tree: [get_git_diff],
    [stage_all], [generate_commit_message] and [commit_and_push].  Text is
    modelled as lists of characters, the regular expressions of
    [SECRET_PATTERNS] by a backtracking matcher with greedy repetition, and
    the calls that leave the process (the git subprocess, the environment,
    the completion service, standard output) by a state-and-exception monad
    that threads the outside world and records every call in a trace. *)

From Stdlib Require Import String Ascii List Bool Arith ZArith Lia.
From Stdlib Require Import DecimalString.
Import ListNotations.

Local Open Scope list_scope.

(** ** Text *)

(** A Python [str] whose code points are below 256: one [ascii] per code
    point. *)
Definition str : Type := list ascii.

Definition lit (s : string) : str := list_ascii_of_string s.

Definition chr (n : nat) : ascii := ascii_of_nat n.
Definition ord (c : ascii) : nat := nat_of_ascii c.

Definition NL : ascii := chr 10.
Definition SP : ascii := chr 32.

Definition str_eqb (a b : str) : bool :=
  if list_eq_dec ascii_dec a b then true else false.

(** Python truthiness of a string and of an optional string. *)
Definition truthy (s : str) : bool :=
  match s with [] => false | _ :: _ => true end.

Definition truthy_opt (o : option str) : bool :=
  match o with Some s => truthy s | None => false end.

(** [a or b] on an optional string with a string default. *)
Definition or_else (o : option str) (d : str) : str :=
  match o with
  | Some (c :: s) => c :: s
  | _ => d
  end.

(** [str.isspace] on one character: the whitespace code points below 256. *)
Definition isspace (c : ascii) : bool :=
  let n := ord c in
  ((9 <=? n) && (n <=? 13)) || ((28 <=? n) && (n <=? 32))
  || (n =? 133) || (n =? 160).

Fixpoint lstrip_by (p : ascii -> bool) (s : str) : str :=
  match s with
  | c :: s' => if p c then lstrip_by p s' else s
  | [] => []
  end.

Definition rstrip_by (p : ascii -> bool) (s : str) : str :=
  rev (lstrip_by p (rev s)).

Definition strip_by (p : ascii -> bool) (s : str) : str :=
  rstrip_by p (lstrip_by p s).

(** [s.strip()] *)
Definition strip (s : str) : str := strip_by isspace s.

(** [s.strip("`")] *)
Definition strip_backticks (s : str) : str :=
  strip_by (fun c => Ascii.eqb c (chr 96)) s.

(** [s.startswith(p)] *)
Fixpoint startswith (s p : str) {struct p} : bool :=
  match p, s with
  | [], _ => true
  | a :: p', b :: s' => Ascii.eqb a b && startswith s' p'
  | _ :: _, [] => false
  end.

(** [sep.join(parts)] *)
Fixpoint join (sep : str) (parts : list str) : str :=
  match parts with
  | [] => []
  | [x] => x
  | x :: rest => x ++ sep ++ join sep rest
  end.

(** The line boundaries of [str.splitlines] below code point 256. *)
Definition is_linebreak (c : ascii) : bool :=
  let n := ord c in
  ((10 <=? n) && (n <=? 13)) || ((28 <=? n) && (n <=? 30)) || (n =? 133).

(** [s.splitlines()]: [cur] is the current line, reversed; [after_cr] tells
    that the previous character was a carriage return, so that a line feed
    right after it belongs to the same boundary. *)
Fixpoint splitlines_aux (after_cr : bool) (cur : str) (s : str) : list str :=
  match s with
  | [] => match cur with [] => [] | _ => [rev cur] end
  | c :: s' =>
      if (ord c =? 10) && after_cr then splitlines_aux false [] s'
      else if is_linebreak c then rev cur :: splitlines_aux (ord c =? 13) [] s'
      else splitlines_aux false (c :: cur) s'
  end.

Definition splitlines (s : str) : list str := splitlines_aux false [] s.

(** [x in xs] for a list of strings. *)
Definition str_in (x : str) (xs : list str) : bool := existsb (str_eqb x) xs.

(** [s[:limit]] for a Python integer [limit]: a negative limit counts from
    the end of the string. *)
Definition slice_to (limit : Z) (s : str) : str :=
  if (0 <=? limit)%Z then firstn (Z.to_nat limit) s
  else firstn (length s - Z.to_nat (- limit)) s.

(** [str(n)] for a Python integer. *)
Definition str_of_int (n : Z) : str := lit (NilZero.string_of_int (Z.to_int n)).

(** ** Regular expressions

    The five patterns of [SECRET_PATTERNS] are sequences of single-character
    classes under a repetition: a literal is a class repeated once, [x?] is
    zero or one, [x*] zero or more, [x+] one or more, [x{n,}] at least [n].
    Groups only capture, and no replacement refers to a group. *)

Record node : Type := Rep {
  cls : ascii -> bool;     (* the character class *)
  lo : nat;                (* least number of repetitions *)
  hi : option nat          (* greatest number, [None] for no bound *)
}.

Definition regex : Type := list node.

(** One more repetition allowed, and the bound that is left after it. *)
Definition more (h : option nat) : bool :=
  match h with Some 0 => false | _ => true end.

Definition less (h : option nat) : option nat :=
  match h with Some n => Some (pred n) | None => None end.

(** Greedy repetition with backtracking: take a character of the class while
    there is one, try the rest of the pattern [k] on what follows, and give
    the character back when the rest fails.  The result is the text left
    after the whole match. *)
Fixpoint greedy (p : ascii -> bool) (l : nat) (h : option nat)
    (k : str -> option str) (s : str) : option str :=
  let stop := match l with 0 => k s | S _ => None end in
  match s with
  | c :: s' =>
      if p c && more h then
        match greedy p (pred l) (less h) k s' with
        | Some r => Some r
        | None => stop
        end
      else stop
  | [] => stop
  end.

(** [pattern.match(s)]: a match anchored at the start of [s]. *)
Fixpoint re_match (r : regex) (s : str) : option str :=
  match r with
  | [] => Some s
  | n :: r' => greedy (cls n) (lo n) (hi n) (re_match r') s
  end.

(** [pattern.sub(repl, s)]: scan from the left, replace every match by
    [repl] and go on after it.  [skip] counts the characters of the current
    match that are still to be passed over.  (An empty match puts [repl] in
    front of the character and goes on; no pattern of this program matches
    the empty string.) *)
Fixpoint sub_from (skip : nat) (r : regex) (repl : str) (s : str) : str :=
  match skip, s with
  | S n, _ :: s' => sub_from n r repl s'
  | S _, [] => []
  | 0, [] => match re_match r [] with Some _ => repl | None => [] end
  | 0, c :: s' =>
      match re_match r s with
      | Some rest =>
          match length s - length rest with
          | S n => repl ++ sub_from n r repl s'
          | 0 => repl ++ c :: sub_from 0 r repl s'
          end
      | None => c :: sub_from 0 r repl s'
      end
  end.

Definition re_sub (r : regex) (repl : str) (s : str) : str :=
  sub_from 0 r repl s.

(** *** Character classes *)

Definition in_range (a b : nat) (c : ascii) : bool :=
  (a <=? ord c) && (ord c <=? b).

Definition is_upper : ascii -> bool := in_range 65 90.
Definition is_lower : ascii -> bool := in_range 97 122.
Definition is_digit : ascii -> bool := in_range 48 57.
Definition is_alnum (c : ascii) : bool := is_upper c || is_lower c || is_digit c.

Definition one_of (s : string) (c : ascii) : bool :=
  existsb (Ascii.eqb c) (lit s).

(** Lower case of a character, as far as the letters of the patterns need
    it: no code point below 256 other than [A]-[Z] has an ASCII letter as its
    lower case. *)
Definition tolower (c : ascii) : ascii :=
  if is_upper c then chr (ord c + 32) else c.

(** A literal character under [(?i)]. *)
Definition ichar (x : ascii) : node :=
  Rep (fun c => Ascii.eqb (tolower c) (tolower x)) 1 (Some 1).

(** A literal word under [(?i)]. *)
Definition iword (w : string) : regex := map ichar (lit w).

Definition opt (p : ascii -> bool) : node := Rep p 0 (Some 1).
Definition star (p : ascii -> bool) : node := Rep p 0 None.
Definition plus (p : ascii -> bool) : node := Rep p 1 None.
Definition at_least (n : nat) (p : ascii -> bool) : node := Rep p n None.

(** [[_-]] *)
Definition sep_class : ascii -> bool := one_of "_-".
(** [[A-Za-z0-9/+=]] *)
Definition aws_value_class (c : ascii) : bool := is_alnum c || one_of "/+=" c.
(** [[A-Za-z0-9_-]] *)
Definition api_value_class (c : ascii) : bool := is_alnum c || one_of "_-" c.
(** [[A-Za-z0-9._-]] *)
Definition bearer_value_class (c : ascii) : bool := is_alnum c || one_of "._-" c.
(** [[^ \n]] *)
Definition not_space_nl (c : ascii) : bool :=
  negb (Ascii.eqb c SP || Ascii.eqb c NL).

(** *** [SECRET_PATTERNS] *)

(** [(?i)aws[_-]?secret[_-]?access[_-]?key\s*=\s*([A-Za-z0-9/+=]{20,})] *)
Definition aws_re : regex :=
  iword "aws" ++ [opt sep_class] ++ iword "secret" ++ [opt sep_class]
  ++ iword "access" ++ [opt sep_class] ++ iword "key"
  ++ [star isspace] ++ iword "=" ++ [star isspace]
  ++ [at_least 20 aws_value_class].

(** [(?i)api[_-]?key\s*=\s*([A-Za-z0-9_-]{16,})] *)
Definition api_key_re : regex :=
  iword "api" ++ [opt sep_class] ++ iword "key"
  ++ [star isspace] ++ iword "=" ++ [star isspace]
  ++ [at_least 16 api_value_class].

(** [(?i)authorization:\s*Bearer\s+[A-Za-z0-9._-]{16,}] *)
Definition bearer_re : regex :=
  iword "authorization:" ++ [star isspace] ++ iword "Bearer"
  ++ [plus isspace] ++ [at_least 16 bearer_value_class].

(** [(?i)key\s*=\s*[^ \n]+], the shape of the last two rules. *)
Definition assignment_re (key : string) : regex :=
  iword key ++ [star isspace] ++ iword "=" ++ [star isspace]
  ++ [plus not_space_nl].

(** [(?i)password\s*=\s*[^ \n]+] *)
Definition password_re : regex := assignment_re "password".

(** [(?i)secret\s*=\s*[^ \n]+] *)
Definition secret_re : regex := assignment_re "secret".

Definition SECRET_PATTERNS : list (regex * str) :=
  [ (aws_re, lit "aws_secret_access_key=***");
    (api_key_re, lit "api_key=***");
    (bearer_re, lit "authorization: Bearer ***");
    (password_re, lit "password=***");
    (secret_re, lit "secret=***") ].

(** [redact_secrets]: every rule in turn, each on the result of the one
    before. *)
Definition redact_secrets (text : str) : str :=
  fold_left (fun redacted rule => re_sub (fst rule) (snd rule) redacted)
            SECRET_PATTERNS text.

(** ** The outside world

    Every tool call runs against a git working tree, the process
    environment, the completion service and standard output.  The world is
    threaded through the calls; what it answers is not fixed here. *)

Inductive exn : Type :=
| RuntimeError (msg : str)      (* [raise RuntimeError(msg)] of the source *)
| OtherError (what : str).      (* anything a collaborator raises *)

(** The result of [subprocess.run(..., capture_output=True, text=True)]. *)
Record CompletedProcess : Type := {
  returncode : Z;
  stdout : str;
  stderr : str
}.

(** The request of [client.chat.completions.create], with the key the client
    was built from. *)
Record ChatRequest (float : Type) : Type := {
  req_api_key : str;
  req_model : str;
  req_temperature : float;
  req_system : str;
  req_user : str;
  req_max_tokens : Z
}.
Arguments req_api_key {float}.
Arguments req_model {float}.
Arguments req_temperature {float}.
Arguments req_system {float}.
Arguments req_user {float}.
Arguments req_max_tokens {float}.

(** What leaves the process. *)
Inductive event (float : Type) : Type :=
| EvRun (argv : list str) (cwd : str)     (* a subprocess *)
| EvGetenv (name : str)                   (* [os.getenv] at call time *)
| EvChat (req : ChatRequest float)        (* a completion request *)
| EvPrint (text : str).                   (* [print] *)
Arguments EvRun {float}.
Arguments EvGetenv {float}.
Arguments EvChat {float}.
Arguments EvPrint {float}.

(** The collaborators.  [chat_completions_create] answers with the text of
    the first choice, or fails (transport error, no text in the answer).
    [textwrap_dedent] is the library function of that name. *)
Record Host (World float : Type) : Type := {
  path_resolve : str -> World -> str;
  subprocess_run : list str -> str -> World -> (exn + CompletedProcess) * World;
  os_getenv : str -> World -> option str;
  chat_completions_create : ChatRequest float -> World -> (exn + str) * World;
  textwrap_dedent : str -> str
}.
Arguments path_resolve {World float}.
Arguments subprocess_run {World float}.
Arguments os_getenv {World float}.
Arguments chat_completions_create {World float}.
Arguments textwrap_dedent {World float}.

(** The module-level configuration, read from the environment at import. *)
Record Config (float : Type) : Type := {
  MAX_DIFF_CHARS : Z;              (* [int(os.getenv(...))]: any integer *)
  ALLOWED_ROOTS : list str;        (* the resolved roots, as strings *)
  DEFAULT_OPENAI_MODEL : str;
  OPENAI_TEMPERATURE : float
}.
Arguments MAX_DIFF_CHARS {float}.
Arguments ALLOWED_ROOTS {float}.
Arguments DEFAULT_OPENAI_MODEL {float}.
Arguments OPENAI_TEMPERATURE {float}.

(** The state of a run: the world and the calls made so far, oldest first. *)
Record State (World float : Type) : Type := {
  world : World;
  trace : list (event float)
}.
Arguments Build_State {World float}.
Arguments world {World float}.
Arguments trace {World float}.

(** A computation that may raise and that changes the state. *)
Definition M (World float A : Type) : Type :=
  State World float -> (exn + A) * State World float.

Definition ret {World float A} (a : A) : M World float A :=
  fun st => (inr a, st).

Definition raise {World float A} (e : exn) : M World float A :=
  fun st => (inl e, st).

Definition bind {World float A B} (m : M World float A)
    (k : A -> M World float B) : M World float B :=
  fun st =>
    match m st with
    | (inr a, st') => k a st'
    | (inl e, st') => (inl e, st')
    end.

(** [try: m  except Exception: h] *)
Definition try_except {World float A} (m h : M World float A) : M World float A :=
  fun st =>
    match m st with
    | (inr a, st') => (inr a, st')
    | (inl _, st') => h st'
    end.

Notation "x <- m ;; k" := (bind m (fun x => k))
  (at level 61, m at next level, right associativity).
Notation "m ;;; k" := (bind m (fun _ => k))
  (at level 61, right associativity).

Definition marker : str :=
  NL :: lit "[commit-buddy] Diff truncated for size." ++ [NL].

Definition DQ : ascii := chr 34.

Section Server.

Context {World float : Type}.
Variable host : Host World float.
Variable cfg : Config float.

Local Abbreviation Run := (M World float).

(** *** Calls to the collaborators *)

Definition emit (e : event float) : Run unit :=
  fun st => (inr tt, Build_State (world st) (trace st ++ [e])).

(** [subprocess.run(argv, cwd=cwd, capture_output=True, text=True)] *)
Definition run (argv : list str) (cwd : str) : Run CompletedProcess :=
  fun st =>
    let '(res, w) := subprocess_run host argv cwd (world st) in
    (res, Build_State w (trace st ++ [EvRun argv cwd])).

(** [os.getenv(name)] *)
Definition getenv (name : str) : Run (option str) :=
  fun st =>
    (inr (os_getenv host name (world st)),
     Build_State (world st) (trace st ++ [EvGetenv name])).

(** [client.chat.completions.create(...)], down to the text of the first
    choice. *)
Definition chat (req : ChatRequest float) : Run str :=
  fun st =>
    let '(res, w) := chat_completions_create host req (world st) in
    (res, Build_State w (trace st ++ [EvChat req])).

(** [print(text)] *)
Definition print (text : str) : Run unit := emit (EvPrint text).

(** [Path(path).resolve()], as a string. *)
Definition resolve (path : str) : Run str :=
  fun st => (inr (path_resolve host path (world st)), st).

(** *** Helpers *)

Definition AccessDenied (path : str) : exn :=
  RuntimeError (lit "Path " ++ path
    ++ lit " is not in COMMIT_BUDDY_ALLOWED_ROOTS. "
    ++ lit "Set COMMIT_BUDDY_ALLOWED_ROOTS to allow this repo.").

Definition check_allowed (path : str) : Run unit :=
  match ALLOWED_ROOTS cfg with
  | [] => ret tt
  | roots =>
      if negb (existsb (fun root => startswith path root) roots)
      then raise (AccessDenied path)
      else ret tt
  end.

Definition CommandFailed (args : list str) (err : str) : exn :=
  RuntimeError (lit "git " ++ join (lit " ") args ++ lit " failed: " ++ strip err).

Definition run_git (args : list str) (cwd : str) : Run str :=
  result <- run (lit "git" :: args) cwd ;;
  if negb (returncode result =? 0)%Z
  then raise (CommandFailed args (stderr result))
  else ret (strip (stdout result)).

Definition ensure_repo (path : str) : Run str :=
  p <- resolve path ;;
  check_allowed p ;;;
  run_git [lit "rev-parse"; lit "--show-toplevel"] p ;;;
  ret p.

Definition get_current_branch (cwd : str) : Run str :=
  run_git [lit "rev-parse"; lit "--abbrev-ref"; lit "HEAD"] cwd.

Definition has_remote (cwd : str) (remote : str) : Run bool :=
  out <- run_git [lit "remote"] cwd ;;
  ret (str_in remote (splitlines out)).

Definition MissingCredential : exn :=
  RuntimeError (lit "OPENAI_API_KEY is not set. Cannot generate commit message.").

Definition system_prompt : str :=
  lit "You are a senior engineer who writes excellent Conventional Commits.".

(** The f-string of the prompt, before [textwrap.dedent].  The sign for
    "at most" in the subject-line requirement is code point 8804, written
    here as the three bytes of its UTF-8 form. *)
Definition user_prompt_template (diff : str) (language : option str) : str :=
  NL :: lit "    Generate a clear, **Conventional Commits** style commit message based on the unified git diff below." ++ [NL]
  ++ [NL]
  ++ lit "    Requirements:" ++ [NL]
  ++ lit "    - Start with a conventional type (feat, fix, docs, style, refactor, test, chore, perf, build, ci)." ++ [NL]
  ++ lit "    - A concise subject line (" ++ [chr 226; chr 137; chr 164] ++ lit " 72 chars)." ++ [NL]
  ++ lit "    - Optional body lines with bullet points summarizing key changes." ++ [NL]
  ++ lit "    - No code fences in the output. Plain text only." ++ [NL]
  ++ lit "    - If the changes are trivial (whitespace, typos), use " ++ [DQ] ++ lit "chore:" ++ [DQ]
       ++ lit " or " ++ [DQ] ++ lit "style:" ++ [DQ] ++ lit " accordingly." ++ [NL]
  ++ lit "    - "
       ++ (match language with
           | Some (c :: l) => lit "Write it in " ++ (c :: l) ++ lit "."
           | _ => lit "Write in English."
           end) ++ [NL]
  ++ [NL]
  ++ lit "    Git diff:" ++ [NL]
  ++ lit "    " ++ diff ++ [NL]
  ++ lit "    ".

(** The request that [openai_generate_commit_message] sends. *)
Definition request_of (key diff : str) (language : option str) (model : str)
    (temperature : float) : ChatRequest float :=
  {| req_api_key := key;
     req_model := model;
     req_temperature := temperature;
     req_system := system_prompt;
     req_user := textwrap_dedent host (user_prompt_template diff language);
     req_max_tokens := 220 |}.

(** What is kept of the answer:
    [content.strip()], then [msg.strip().strip("`").strip()]. *)
Definition cleaned (content : str) : str :=
  let msg := strip content in
  strip (strip_backticks (strip msg)).

Definition openai_generate_commit_message (diff : str) (language : option str)
    (model : str) (temperature : float) : Run str :=
  api_key <- getenv (lit "OPENAI_API_KEY") ;;
  if negb (truthy_opt api_key) then raise MissingCredential
  else
    content <- chat (request_of (or_else api_key []) diff language model temperature) ;;
    ret (cleaned content).

(** [diff[:limit] + marker] when [len(diff) > limit] *)
Definition truncate (limit : Z) (diff : str) : str :=
  if (limit <? Z.of_nat (length diff))%Z then slice_to limit diff ++ marker
  else diff.

(** *** Tools *)

Definition NoChangesDetected : str :=
  lit "[commit-buddy] No changes detected (diff is empty).".

(** The arguments of the [git diff] of [get_git_diff]. *)
Definition diff_args (staged_only : bool) (context_lines : Z)
    (filter_path : option str) : list str :=
  let args := [lit "diff"; lit "-U" ++ str_of_int context_lines] in
  let args := if staged_only
              then firstn 1 args ++ [lit "--staged"] ++ skipn 1 args
              else args in
  match filter_path with
  | Some (c :: f) => args ++ [c :: f]
  | _ => args
  end.

(** [max_chars if (isinstance(max_chars, int) and max_chars > 0) else
    MAX_DIFF_CHARS] *)
Definition diff_limit (max_chars : option Z) : Z :=
  match max_chars with
  | Some m => if (0 <? m)%Z then m else MAX_DIFF_CHARS cfg
  | None => MAX_DIFF_CHARS cfg
  end.

Definition get_git_diff (path : str) (staged_only : bool) (context_lines : Z)
    (filter_path : option str) (max_chars : option Z) : Run str :=
  repo <- ensure_repo path ;;
  diff <- run_git (diff_args staged_only context_lines filter_path) repo ;;
  if negb (truthy diff) then ret NoChangesDetected
  else
    let diff := redact_secrets diff in
    ret (truncate (diff_limit max_chars) diff).

Definition stage_all (path : str) (pattern : option str) : Run str :=
  repo <- ensure_repo path ;;
  match pattern with
  | Some (c :: p) =>
      run_git [lit "add"; c :: p] repo ;;;
      ret (lit "[commit-buddy] Staged changes matching: " ++ (c :: p))
  | _ =>
      run_git [lit "add"; lit "-A"] repo ;;;
      ret (lit "[commit-buddy] Staged all changes.")
  end.

(** [["diff", "--staged"] if staged_only else ["diff"]] *)
Definition plain_diff_args (staged_only : bool) : list str :=
  if staged_only then [lit "diff"; lit "--staged"] else [lit "diff"].

(** Everything after [return "testing commit message"] in the source is
    unreachable; [language], [model] and [temperature] are never read. *)
Definition generate_commit_message (path : str) (staged_only : bool)
    (language : option str) (model : option str) (temperature : option float)
    : Run str :=
  repo <- ensure_repo path ;;
  diff <- run_git (plain_diff_args staged_only) repo ;;
  if negb (truthy diff)
  then ret (lit "[commit-buddy] No changes detected; nothing to describe.")
  else
    print diff ;;;
    ret (lit "testing commit message").

Definition NothingToCommit : str := lit "[commit-buddy] Nothing to commit.".

Definition Blocked (current_branch : str) : str :=
  lit "[commit-buddy] Push blocked: refusing to push directly to "
  ++ current_branch ++ lit ". Set allow_main_push=true to override.".

Definition NoChangesForGeneration : str :=
  lit "[commit-buddy] No changes detected for message generation.".

Definition MessageRequired : exn :=
  RuntimeError (lit "Commit message is required (generation disabled or failed).").

Definition DryRunPreview (current_branch remote final_message : str) : str :=
  textwrap_dedent host
    (lit "        [commit-buddy] DRY RUN" ++ [NL]
     ++ lit "        Branch: " ++ current_branch ++ [NL]
     ++ lit "        Remote: " ++ remote ++ [NL]
     ++ lit "        Message:" ++ [NL]
     ++ lit "        " ++ final_message ++ [NL]
     ++ lit "        (No commit/push executed.)" ++ [NL]
     ++ lit "        ").

Definition RemoteNotFound (remote : str) : exn :=
  RuntimeError (lit "Remote '" ++ remote ++ lit "' not found. Add it with 'git remote add "
                ++ remote ++ lit " <url>'.").

Definition Pushed (remote current_branch : str) : str :=
  lit "[commit-buddy] Committed and pushed to " ++ remote ++ lit "/"
  ++ current_branch ++ lit ".".

Definition PushSkipped (current_branch : str) : str :=
  lit "[commit-buddy] Committed locally on " ++ current_branch ++ lit ". Push skipped.".

(** [branch or get_current_branch(repo)] *)
Definition resolve_branch (branch : option str) (repo : str) : Run str :=
  match branch with
  | Some (c :: b) => ret (c :: b)
  | _ => get_current_branch repo
  end.

Definition is_protected (current_branch : str) : bool :=
  str_in current_branch [lit "main"; lit "master"].

(** The message of the request, or a generated one: the result is either
    the text to return at once ([inl]) or the message to commit ([inr]). *)
Definition resolve_message (repo message : str) (generate_if_empty : bool)
    (staged_only_for_gen : bool) (language model : option str)
    (temperature : option float) : Run (str + str) :=
  let final_message := strip message in
  if negb (truthy final_message) && generate_if_empty then
    diff <- run_git (plain_diff_args staged_only_for_gen) repo ;;
    if negb (truthy diff) then ret (inl NoChangesForGeneration)
    else
      let diff := redact_secrets diff in
      let diff := truncate (MAX_DIFF_CHARS cfg) diff in
      let mdl := or_else model (DEFAULT_OPENAI_MODEL cfg) in
      let temp := match temperature with
                  | None => OPENAI_TEMPERATURE cfg
                  | Some t => t
                  end in
      generated <- openai_generate_commit_message diff language mdl temp ;;
      ret (inr generated)
  else ret (inr final_message).

(** The arguments of the [git commit] of [commit_and_push]. *)
Definition commit_args (final_message : str) (signoff : bool) : list str :=
  let args := [lit "commit"; lit "-m"; final_message] in
  if signoff then args ++ [lit "--signoff"] else args.

(** The push of [commit_and_push], after the remote was found. *)
Definition push_with_upstream (repo remote current_branch : str) : Run str :=
  try_except
    (run_git [lit "rev-parse"; lit "--abbrev-ref"; lit "--symbolic-full-name";
              lit "@{u}"] repo ;;;
     run_git [lit "push"; remote; current_branch] repo)
    (run_git [lit "push"; lit "--set-upstream"; remote; current_branch] repo).

Definition commit_and_push (path message : str) (signoff : bool)
    (branch : option str) (remote : str) (push allow_main_push : bool)
    (generate_if_empty staged_only_for_gen dry_run : bool)
    (language model : option str) (temperature : option float) : Run str :=
  repo <- ensure_repo path ;;
  status <- run_git [lit "status"; lit "--porcelain"] repo ;;
  if negb (truthy status) then ret NothingToCommit
  else
    current_branch <- resolve_branch branch repo ;;
    if push && negb allow_main_push && is_protected current_branch
    then ret (Blocked current_branch)
    else
      resolved <- resolve_message repo message generate_if_empty
                    staged_only_for_gen language model temperature ;;
      match resolved with
      | inl early => ret early
      | inr final_message =>
          if negb (truthy final_message) then raise MessageRequired
          else if dry_run
          then ret (DryRunPreview current_branch remote final_message)
          else
            run_git (commit_args final_message signoff) repo ;;;
            if push then
              found <- has_remote repo remote ;;
              if negb found then raise (RemoteNotFound remote)
              else
                push_with_upstream repo remote current_branch ;;;
                ret (Pushed remote current_branch)
            else ret (PushSkipped current_branch)
      end.

End Server.

(** ** A small repository to run the tools on

    A working tree with one staged change, one branch and a list of remotes;
    [git commit] records the message and empties the index, [git push] works
    or not as [push_ok] says, and pushing with [--set-upstream] sets the
    tracking ref.  The completion service answers with a fixed text. *)

Module Toy.

Record Repo : Type := {
  staged : str;            (* the staged diff *)
  head : str;              (* the current branch *)
  remotes : list str;
  upstream : bool;         (* a tracking ref is set *)
  push_ok : bool;          (* a plain push is accepted *)
  commits : list str;      (* the messages of the commits, newest first *)
  pushes : nat;            (* pushes that went through *)
  api_key : option str;    (* OPENAI_API_KEY *)
  answer : str             (* what the completion service answers *)
}.

Definition ok (out : str) : CompletedProcess :=
  {| returncode := 0; stdout := out; stderr := [] |}.

Definition failed (code : Z) (err : str) : CompletedProcess :=
  {| returncode := code; stdout := []; stderr := err |}.

Definition commit (msg : str) (w : Repo) : Repo :=
  {| staged := []; head := head w; remotes := remotes w; upstream := upstream w;
     push_ok := push_ok w; commits := msg :: commits w; pushes := pushes w;
     api_key := api_key w; answer := answer w |}.

Definition pushed (set_upstream : bool) (w : Repo) : Repo :=
  {| staged := staged w; head := head w; remotes := remotes w;
     upstream := upstream w || set_upstream;
     push_ok := push_ok w; commits := commits w; pushes := S (pushes w);
     api_key := api_key w; answer := answer w |}.

Definition git (args : list str) (cwd : str) (w : Repo) : CompletedProcess * Repo :=
  match args with
  | sub :: rest =>
      if str_eqb sub (lit "status") then
        (ok (match staged w with [] => [] | _ => lit "M  a.txt" ++ [NL] end), w)
      else if str_eqb sub (lit "diff") then (ok (staged w ++ [NL]), w)
      else if str_eqb sub (lit "remote") then (ok (join [NL] (remotes w) ++ [NL]), w)
      else if str_eqb sub (lit "rev-parse") then
        if str_in (lit "--show-toplevel") rest then (ok (cwd ++ [NL]), w)
        else if str_in (lit "@{u}") rest then
          if upstream w then (ok (lit "origin/" ++ head w ++ [NL]), w)
          else (failed 128 (lit "fatal: no upstream configured" ++ [NL]), w)
        else (ok (head w ++ [NL]), w)
      else if str_eqb sub (lit "commit") then
        match rest with
        | _ :: msg :: _ => (ok [], commit msg w)
        | _ => (failed 1 (lit "error: no message"), w)
        end
      else if str_eqb sub (lit "push") then
        if str_in (lit "--set-upstream") rest then (ok [], pushed true w)
        else if push_ok w then (ok [], pushed false w)
        else (failed 1 (lit "error: failed to push some refs" ++ [NL]), w)
      else (failed 1 (lit "git: unknown command"), w)
  | [] => (failed 1 [], w)
  end.

(** [textwrap.dedent] is stood in for by the identity: nothing below reads
    the layout of a text. *)
Definition host : Host Repo nat := {|
  path_resolve := fun path _ => path;
  subprocess_run := fun argv cwd w =>
    match argv with
    | _ :: args => let '(cp, w') := git args cwd w in (inr cp, w')
    | [] => (inl (OtherError (lit "FileNotFoundError")), w)
    end;
  os_getenv := fun name w =>
    if str_eqb name (lit "OPENAI_API_KEY") then api_key w else None;
  chat_completions_create := fun _ w => (inr (answer w), w);
  textwrap_dedent := fun text => text
|}.

(** Temperatures in hundredths. *)
Definition cfg : Config nat := {|
  MAX_DIFF_CHARS := 200000;
  ALLOWED_ROOTS := [];
  DEFAULT_OPENAI_MODEL := lit "gpt-4o-mini";
  OPENAI_TEMPERATURE := 20
|}.

Definition repo0 : Repo := {|
  staged := lit "+password=hunter2";
  head := lit "feature";
  remotes := [lit "origin"];
  upstream := false;
  push_ok := true;
  commits := [];
  pushes := 0;
  api_key := Some (lit "sk-test");
  answer := lit "`feat: add settings`"
|}.

Definition start (w : Repo) : State Repo nat := {| world := w; trace := [] |}.

(** The same repository with a tracking ref and a remote that rejects the
    push. *)
Definition repo_rejecting : Repo := {|
  staged := staged repo0; head := head repo0; remotes := remotes repo0;
  upstream := true; push_ok := false;
  commits := commits repo0; pushes := pushes repo0;
  api_key := api_key repo0; answer := answer repo0
|}.

(** A configuration whose default cap is negative
    ([COMMIT_BUDDY_MAX_DIFF_CHARS=-1]). *)
Definition cfg_negative_cap : Config nat := {|
  MAX_DIFF_CHARS := -1;
  ALLOWED_ROOTS := [];
  DEFAULT_OPENAI_MODEL := lit "gpt-4o-mini";
  OPENAI_TEMPERATURE := 20
|}.

(** A configuration with one allowed root. *)
Definition cfg_rooted : Config nat := {|
  MAX_DIFF_CHARS := 200000;
  ALLOWED_ROOTS := [lit "/srv/repos"];
  DEFAULT_OPENAI_MODEL := lit "gpt-4o-mini";
  OPENAI_TEMPERATURE := 20
|}.

(** [commit_and_push(message="feat: x")] with the defaults, on a repository
    whose remote rejects the push. *)
Definition rejected_push : (exn + str) * State Repo nat :=
  commit_and_push host cfg (lit ".") (lit "feat: x") false None (lit "origin")
    true false true true false None None None (start repo_rejecting).

(** [generate_commit_message()] with the defaults. *)
Definition describe : (exn + str) * State Repo nat :=
  generate_commit_message host cfg (lit ".") true None None None (start repo0).

(** The same repository with nothing staged. *)
Definition repo_clean : Repo := {|
  staged := []; head := head repo0; remotes := remotes repo0;
  upstream := upstream repo0; push_ok := push_ok repo0;
  commits := commits repo0; pushes := pushes repo0;
  api_key := api_key repo0; answer := answer repo0
|}.

(** The same repository with a tracking ref and a remote that takes the
    push. *)
Definition repo_tracking : Repo := {|
  staged := staged repo0; head := head repo0; remotes := remotes repo0;
  upstream := true; push_ok := true;
  commits := commits repo0; pushes := pushes repo0;
  api_key := api_key repo0; answer := answer repo0
|}.

(** The same repository in a process without [OPENAI_API_KEY]. *)
Definition repo_no_key : Repo := {|
  staged := staged repo0; head := head repo0; remotes := remotes repo0;
  upstream := upstream repo0; push_ok := push_ok repo0;
  commits := commits repo0; pushes := pushes repo0;
  api_key := None; answer := answer repo0
|}.

(** The same repository with a completion service that answers with an
    empty code fence. *)
Definition repo_fenced : Repo := {|
  staged := staged repo0; head := head repo0; remotes := remotes repo0;
  upstream := upstream repo0; push_ok := push_ok repo0;
  commits := commits repo0; pushes := pushes repo0;
  api_key := api_key repo0; answer := lit "``` ```"
|}.

(** The same collaborators with a completion service that cannot be
    reached. *)
Definition host_offline : Host Repo nat := {|
  path_resolve := path_resolve host;
  subprocess_run := subprocess_run host;
  os_getenv := os_getenv host;
  chat_completions_create := fun _ w => (inl (OtherError (lit "APIConnectionError")), w);
  textwrap_dedent := textwrap_dedent host
|}.

End Toy.

(** [pattern.search(s) is not None]: the pattern matches somewhere in [s]. *)
Fixpoint re_search (r : regex) (s : str) : bool :=
  match re_match r s with
  | Some _ => true
  | None => match s with [] => false | _ :: s' => re_search r s' end
  end.

(** *** The declarative reading of a pattern *)

(** [n] repetitions respect the upper bound [h]. *)
Definition within (h : option nat) (n : nat) : Prop :=
  match h with Some m => n <= m | None => True end.

(** [w] is a text the pattern can match in full: it splits into one run of
    characters per node, each run in the class of its node and of a length
    within the bounds of the node. *)
Fixpoint shape (r : regex) (w : str) : Prop :=
  match r with
  | [] => w = []
  | n :: r' =>
      exists a b, w = a ++ b /\ forallb (cls n) a = true
                  /\ lo n <= length a /\ within (hi n) (length a) /\ shape r' b
  end.

(** What is left of a node once [j] of its repetitions are behind. *)
Definition residual (n : node) (j : nat) : node :=
  Rep (cls n) (lo n - j) (option_map (fun h => h - j) (hi n)).

(** Every way in which the rest of [r] can go on into [z], from the middle
    of any of its nodes, it can also go on into [z']. *)
Fixpoint carries (r : regex) (z z' : str) : Prop :=
  match r with
  | [] => True
  | n :: r' =>
      (forall j, re_match (residual n j :: r') z <> None ->
                 re_match (residual n j :: r') z' <> None)
      /\ carries r' z z'
  end.

(** Every match of [r] anywhere in [o] is an occurrence of [repl]. *)
Definition only_self (r : regex) (repl : str) (o : str) : Prop :=
  forall pre suf rest,
    o = pre ++ suf -> re_match r suf = Some rest -> suf = repl ++ rest.

(** [r] matches nowhere in [o]. *)
Definition no_match (r : regex) (o : str) : Prop :=
  forall pre suf, o = pre ++ suf -> re_match r suf = None.

(** [x] is empty or starts with a character of the class [stop]. *)
Definition stops (stop : ascii -> bool) (x : str) : bool :=
  match x with [] => true | c :: _ => stop c end.

(** A space or a line feed: what ends the value of an assignment. *)
Definition sp_or_nl (c : ascii) : bool := negb (not_space_nl c).

(** ** Reading the trace *)

Section Traces.

Context {float : Type}.

(** The event is the subprocess [git name ...]. *)
Definition git_sub (name : string) (e : event float) : bool :=
  match e with
  | EvRun (g :: sub :: _) _ => str_eqb g (lit "git") && str_eqb sub (lit name)
  | _ => false
  end.

Definition is_chat (e : event float) : bool :=
  match e with EvChat _ => true | _ => false end.

Definition is_getenv (e : event float) : bool :=
  match e with EvGetenv _ => true | _ => false end.

(** Neither a commit, nor a push, nor a completion request. *)
Definition harmless (e : event float) : bool :=
  negb (git_sub "commit" e) && negb (git_sub "push" e) && negb (is_chat e).

(** Neither a commit nor a push. *)
Definition read_only (e : event float) : bool :=
  negb (git_sub "commit" e) && negb (git_sub "push" e).

End Traces.

(** ** Watching a run

    A monitor reads the calls of a run one after the other, in a state of
    its own; [None] is a call it does not allow. *)

Section Monitors.

Context {float : Type}.

Definition monitor (S : Type) : Type := S -> event float -> option S.

Fixpoint observe {S : Type} (d : monitor S) (s : S) (evs : list (event float))
    : option S :=
  match evs with
  | [] => Some s
  | e :: evs' =>
      match d s e with
      | Some s' => observe d s' evs'
      | None => None
      end
  end.

(** The monitor that allows the calls of [allowed] and no other. *)
Definition only (allowed : event float -> bool) : monitor unit :=
  fun _ e => if allowed e then Some tt else None.

(** The state tells whether [git commit] was run: no push before the
    commit, and no second commit. *)
Definition commit_then_push : monitor bool :=
  fun committed e =>
    if committed then (if git_sub "commit" e then None else Some true)
    else if git_sub "push" e then None
    else Some (git_sub "commit" e).

(** The subprocess [git name ...] for one of the names. *)
Definition git_among (names : list string) (e : event float) : bool :=
  existsb (fun name => git_sub name e) names.

Definition is_print (e : event float) : bool :=
  match e with EvPrint _ => true | _ => false end.

(** Every run of [m], whatever the world answers and however the run ends,
    makes only calls that the monitor allows from the state [s], and leaves
    the monitor and the result as [post] says. *)
Definition respects {World A S : Type} (d : monitor S) (s : S)
    (m : M World float A) (post : exn + A -> S -> Prop) : Prop :=
  forall st r st',
    m st = (r, st') ->
    exists evs s', trace st' = trace st ++ evs
                   /\ observe d s evs = Some s' /\ post r s'.

End Monitors.

(** A name as [git remote] lists it: not empty and without whitespace. *)
Definition plain_name (n : str) : bool :=
  truthy n && forallb (fun c => negb (isspace c)) n.

(** ** Text and redaction on examples *)

Lemma str_eqb_eq (a b : str) : str_eqb a b = true <-> a = b.
Proof.
  unfold str_eqb. destruct (list_eq_dec ascii_dec a b); split; congruence.
Qed.

Lemma str_eqb_refl (a : str) : str_eqb a a = true.
Proof. now apply str_eqb_eq. Qed.

(** No pattern of [SECRET_PATTERNS] matches the empty string. *)
Lemma secret_patterns_need_text (rule : regex * str) :
  In rule SECRET_PATTERNS -> re_match (fst rule) [] = None.
Proof.
  intros H. repeat (destruct H as [<- | H]; [reflexivity |]). contradiction.
Qed.

Example redact_password :
  redact_secrets (lit "+password = hunter2 # local") = lit "+password=*** # local".
Proof. vm_compute. reflexivity. Qed.

Example redact_two_rules :
  redact_secrets (lit "API-KEY=abcdefghijklmnop0123 Secret=x")
  = lit "api_key=*** secret=***".
Proof. vm_compute. reflexivity. Qed.

Example redact_bearer :
  redact_secrets (lit "Authorization: bearer abcdefghijklmnop.q")
  = lit "authorization: Bearer ***".
Proof. vm_compute. reflexivity. Qed.

Example redact_short_key_kept :
  redact_secrets (lit "api_key=short") = lit "api_key=short".
Proof. vm_compute. reflexivity. Qed.

Section Lemmas.

Context {World float : Type}.
Variable host : Host World float.
Variable cfg : Config float.

Local Abbreviation Run := (M World float).
Local Abbreviation St := (State World float).

Lemma bind_inr {A B} (m : Run A) (k : A -> Run B) (st st' : St) (a : A) :
  m st = (inr a, st') -> bind m k st = k a st'.
Proof. intros H. unfold bind. now rewrite H. Qed.

Lemma bind_inl {A B} (m : Run A) (k : A -> Run B) (st st' : St) (e : exn) :
  m st = (inl e, st') -> bind m k st = (inl e, st').
Proof. intros H. unfold bind. now rewrite H. Qed.

Lemma bind_inv {A B} (m : Run A) (k : A -> Run B) (st st2 : St) (b : B) :
  bind m k st = (inr b, st2) ->
  exists a st1, m st = (inr a, st1) /\ k a st1 = (inr b, st2).
Proof.
  unfold bind. destruct (m st) as [[e | a] st1]; intros H.
  - discriminate.
  - now exists a, st1.
Qed.

Lemma run_trace (argv : list str) (cwd : str) (st st' : St) r :
  run host argv cwd st = (r, st') ->
  trace st' = trace st ++ [EvRun argv cwd].
Proof.
  unfold run. destruct (subprocess_run host argv cwd (world st)) as [res w].
  intros H. inversion H. reflexivity.
Qed.

Lemma run_git_trace (args : list str) (cwd : str) (st st' : St) r :
  run_git host args cwd st = (r, st') ->
  trace st' = trace st ++ [EvRun (lit "git" :: args) cwd].
Proof.
  unfold run_git, bind.
  destruct (run host (lit "git" :: args) cwd st) as [[e | cp] st1] eqn:E;
    apply run_trace in E.
  - intros H. inversion H. now subst.
  - destruct (negb (returncode cp =? 0)%Z); unfold raise, ret;
      intros H; inversion H; now subst.
Qed.

Lemma check_allowed_state (p : str) (st st' : St) r :
  check_allowed cfg p st = (r, st') -> st' = st.
Proof.
  unfold check_allowed.
  destruct (ALLOWED_ROOTS cfg) as [| root roots].
  - unfold ret. intros H. now inversion H.
  - destruct (negb _); unfold raise, ret; intros H; now inversion H.
Qed.

Lemma ensure_repo_inr (path : str) (st st' : St) (repo : str) :
  ensure_repo host cfg path st = (inr repo, st') ->
  repo = path_resolve host path (world st)
  /\ trace st' = trace st ++ [EvRun [lit "git"; lit "rev-parse"; lit "--show-toplevel"] repo].
Proof.
  unfold ensure_repo. intros H.
  apply bind_inv in H as (p & s1 & H1 & H).
  apply bind_inv in H as (u & s2 & H2 & H).
  apply bind_inv in H as (out & s3 & H3 & H).
  unfold resolve in H1. inversion H1; subst s1 p; clear H1.
  apply check_allowed_state in H2. subst s2.
  apply run_git_trace in H3.
  unfold ret in H. inversion H; subst. split; [reflexivity | assumption].
Qed.

Lemma resolve_branch_trace (branch : option str) (repo : str) (st st' : St) r :
  resolve_branch host branch repo st = (r, st') ->
  exists evs, trace st' = trace st ++ evs /\ forallb harmless evs = true.
Proof.
  unfold resolve_branch, get_current_branch.
  destruct branch as [[| c b] |].
  2: { unfold ret. intros H. inversion H. exists []. now rewrite app_nil_r. }
  all: intros H; apply run_git_trace in H; eexists; split; [exact H | reflexivity].
Qed.

End Lemmas.

(** ** The commit workflow *)

Section Workflow.

Context {World float : Type}.
Variable host : Host World float.
Variable cfg : Config float.

Local Abbreviation St := (State World float).

Lemma truthy_cons (s : str) : s <> [] -> truthy s = true.
Proof. destruct s; [congruence | reflexivity]. Qed.

(** C1. A push to [main] or [master] without [allow_main_push] stops at the
    branch guard: once the repository is found, the status is not empty and
    the branch is resolved, the call returns the [Blocked] text in the state
    that these three queries left, and none of the calls made is a commit, a
    push or a completion request. *)
Theorem push_to_protected_branch_is_blocked
    (path message : str) (signoff : bool) (branch : option str) (remote : str)
    (generate_if_empty staged_only_for_gen dry_run : bool)
    (language model : option str) (temperature : option float)
    (st st1 st2 st3 : St) (repo status current_branch : str) :
  ensure_repo host cfg path st = (inr repo, st1) ->
  run_git host [lit "status"; lit "--porcelain"] repo st1 = (inr status, st2) ->
  status <> [] ->
  resolve_branch host branch repo st2 = (inr current_branch, st3) ->
  current_branch = lit "main" \/ current_branch = lit "master" ->
  commit_and_push host cfg path message signoff branch remote true false
    generate_if_empty staged_only_for_gen dry_run language model temperature st
  = (inr (Blocked current_branch), st3)
  /\ exists evs, trace st3 = trace st ++ evs /\ forallb harmless evs = true.
Proof.
  intros Hrepo Hstatus Hne Hbranch Hprot. split.
  - unfold commit_and_push.
    rewrite (bind_inr _ _ _ _ _ Hrepo), (bind_inr _ _ _ _ _ Hstatus).
    rewrite (truthy_cons _ Hne). cbn [negb].
    rewrite (bind_inr _ _ _ _ _ Hbranch).
    replace (is_protected current_branch) with true
      by (destruct Hprot; subst; reflexivity).
    reflexivity.
  - apply ensure_repo_inr in Hrepo as [_ T1].
    apply run_git_trace in Hstatus.
    apply resolve_branch_trace in Hbranch as (evs & T3 & Hq).
    exists ([EvRun [lit "git"; lit "rev-parse"; lit "--show-toplevel"] repo]
            ++ [EvRun [lit "git"; lit "status"; lit "--porcelain"] repo] ++ evs).
    split.
    + rewrite T3, Hstatus, T1. now rewrite <- !app_assoc.
    + rewrite !forallb_app, Hq. reflexivity.
Qed.

Lemma startswith_app (root rest : str) : startswith (root ++ rest) root = true.
Proof.
  induction root as [| a root IH]; [reflexivity |].
  cbn [startswith app]. now rewrite Ascii.eqb_refl, IH.
Qed.

(** C9. [check_allowed] accepts every path whose string form starts with
    the string form of an allowed root, whatever follows the root: the path
    may be a sibling of the root, such as the root with [evil] appended,
    and not inside it. *)
Theorem check_allowed_accepts_any_extension (root rest : str) (st : St) :
  In root (ALLOWED_ROOTS cfg) ->
  check_allowed cfg (root ++ rest) st = (inr tt, st).
Proof.
  intros Hin. unfold check_allowed.
  destruct (ALLOWED_ROOTS cfg) as [| r0 roots] eqn:E; [contradiction |].
  replace (existsb (fun r => startswith (root ++ rest) r) (r0 :: roots)) with true.
  - reflexivity.
  - symmetry. apply existsb_exists. exists root. split; [assumption |].
    apply startswith_app.
Qed.

Lemma length_slice_to (limit : Z) (s : str) :
  (0 <= limit < Z.of_nat (length s))%Z ->
  Z.of_nat (length (slice_to limit s)) = limit.
Proof.
  intros H. unfold slice_to.
  replace (0 <=? limit)%Z with true by (symmetry; apply Z.leb_le; lia).
  rewrite length_firstn. lia.
Qed.

(** C4, amended.  When the redacted diff is longer than the cap in force
    and that cap is not negative, [get_git_diff] returns the first [cap]
    characters of the redacted diff followed by the marker, a text of
    length [cap + len(marker)].  A cap given by the caller is positive; the
    configured default is whatever integer the environment holds. *)
Theorem get_git_diff_truncates_to_cap
    (path : str) (staged_only : bool) (context_lines : Z)
    (filter_path : option str) (max_chars : option Z)
    (st st1 st2 : St) (repo diff : str) :
  ensure_repo host cfg path st = (inr repo, st1) ->
  run_git host (diff_args staged_only context_lines filter_path) repo st1
    = (inr diff, st2) ->
  diff <> [] ->
  (0 <= diff_limit cfg max_chars)%Z ->
  (diff_limit cfg max_chars < Z.of_nat (length (redact_secrets diff)))%Z ->
  exists text,
    get_git_diff host cfg path staged_only context_lines filter_path max_chars st
      = (inr text, st2)
    /\ text = firstn (Z.to_nat (diff_limit cfg max_chars)) (redact_secrets diff) ++ marker
    /\ Z.of_nat (length text)
       = (diff_limit cfg max_chars + Z.of_nat (length marker))%Z.
Proof.
  intros Hrepo Hdiff Hne Hpos Hlong.
  exists (slice_to (diff_limit cfg max_chars) (redact_secrets diff) ++ marker).
  split; [| split].
  - unfold get_git_diff.
    rewrite (bind_inr _ _ _ _ _ Hrepo), (bind_inr _ _ _ _ _ Hdiff).
    rewrite (truthy_cons _ Hne). cbn [negb]. unfold truncate.
    replace (_ <? _)%Z with true by (symmetry; apply Z.ltb_lt; assumption).
    reflexivity.
  - unfold slice_to.
    now replace (0 <=? _)%Z with true by (symmetry; apply Z.leb_le; assumption).
  - rewrite length_app, Nat2Z.inj_add, length_slice_to by lia. reflexivity.
Qed.

(** C8. On a repository with a diff that is not empty,
    [generate_commit_message] prints the diff and returns the text
    [testing commit message]; no call it makes reads the environment or
    reaches the completion service, and [language], [model] and
    [temperature] have no bearing on the run. *)
Theorem generate_commit_message_is_a_stub
    (path : str) (staged_only : bool) (language model : option str)
    (temperature : option float) (st st1 st2 : St) (repo diff : str) :
  ensure_repo host cfg path st = (inr repo, st1) ->
  run_git host (plain_diff_args staged_only) repo st1 = (inr diff, st2) ->
  diff <> [] ->
  generate_commit_message host cfg path staged_only language model temperature st
    = (inr (lit "testing commit message"),
       {| world := world st2; trace := trace st2 ++ [EvPrint diff] |})
  /\ (exists evs, trace st2 ++ [EvPrint diff] = trace st ++ evs
        /\ forallb (fun e => negb (is_chat e) && negb (is_getenv e)) evs = true)
  /\ (forall language' model' temperature' s,
        generate_commit_message host cfg path staged_only language' model' temperature' s
        = generate_commit_message host cfg path staged_only language model temperature s).
Proof.
  intros Hrepo Hdiff Hne. split; [| split].
  - unfold generate_commit_message.
    rewrite (bind_inr _ _ _ _ _ Hrepo), (bind_inr _ _ _ _ _ Hdiff).
    rewrite (truthy_cons _ Hne). reflexivity.
  - apply ensure_repo_inr in Hrepo as [_ T1]. apply run_git_trace in Hdiff.
    eexists. rewrite Hdiff, T1, <- !app_assoc. split; reflexivity.
  - reflexivity.
Qed.

(** C6. With [push] set and no dry run, when the commit went through and
    [git remote] does not list the remote, the call raises [RemoteNotFound].
    The commit was made before that: after it the only call is the query
    [git remote], and the call ends in the state this query left, with no
    further git command that could undo the commit. *)
Theorem missing_remote_fails_after_the_commit
    (path message : str) (signoff : bool) (branch : option str) (remote : str)
    (allow_main_push generate_if_empty staged_only_for_gen : bool)
    (language model : option str) (temperature : option float)
    (st st1 st2 st3 st4 st5 st6 : St)
    (repo status current_branch final_message out listing : str) :
  ensure_repo host cfg path st = (inr repo, st1) ->
  run_git host [lit "status"; lit "--porcelain"] repo st1 = (inr status, st2) ->
  status <> [] ->
  resolve_branch host branch repo st2 = (inr current_branch, st3) ->
  negb allow_main_push && is_protected current_branch = false ->
  resolve_message host cfg repo message generate_if_empty staged_only_for_gen
    language model temperature st3 = (inr (inr final_message), st4) ->
  final_message <> [] ->
  run_git host (commit_args final_message signoff) repo st4 = (inr out, st5) ->
  run_git host [lit "remote"] repo st5 = (inr listing, st6) ->
  str_in remote (splitlines listing) = false ->
  commit_and_push host cfg path message signoff branch remote true allow_main_push
    generate_if_empty staged_only_for_gen false language model temperature st
  = (inl (RemoteNotFound remote), st6)
  /\ trace st6
     = trace st4 ++ [EvRun (lit "git" :: commit_args final_message signoff) repo;
                     EvRun [lit "git"; lit "remote"] repo].
Proof.
  intros Hrepo Hstatus Hne Hbranch Hgate Hmsg Hmne Hcommit Hremote Hnot. split.
  - unfold commit_and_push.
    rewrite (bind_inr _ _ _ _ _ Hrepo), (bind_inr _ _ _ _ _ Hstatus).
    rewrite (truthy_cons _ Hne). cbn [negb].
    rewrite (bind_inr _ _ _ _ _ Hbranch).
    cbn [andb]. rewrite Hgate.
    rewrite (bind_inr _ _ _ _ _ Hmsg).
    rewrite (truthy_cons _ Hmne). cbn [negb].
    rewrite (bind_inr _ _ _ _ _ Hcommit).
    assert (Hfound : has_remote host repo remote st5 = (inr false, st6)).
    { unfold has_remote. rewrite (bind_inr _ _ _ _ _ Hremote).
      unfold ret. now rewrite Hnot. }
    rewrite (bind_inr _ _ _ _ _ Hfound). reflexivity.
  - apply run_git_trace in Hcommit. apply run_git_trace in Hremote.
    rewrite Hremote, Hcommit, <- app_assoc. reflexivity.
Qed.

Lemma generate_without_key (diff : str) (language : option str) (model : str)
    (temperature : float) (st : St) :
  truthy_opt (os_getenv host (lit "OPENAI_API_KEY") (world st)) = false ->
  openai_generate_commit_message host diff language model temperature st
  = (inl MissingCredential,
     {| world := world st; trace := trace st ++ [EvGetenv (lit "OPENAI_API_KEY")] |}).
Proof.
  intros Hkey. unfold openai_generate_commit_message, bind, getenv.
  now rewrite Hkey.
Qed.

Lemma generate_with_key (diff : str) (language : option str) (model : str)
    (temperature : float) (st : St) (key content : str) (w : World) :
  os_getenv host (lit "OPENAI_API_KEY") (world st) = Some key ->
  key <> [] ->
  chat_completions_create host (request_of host key diff language model temperature)
    (world st) = (inr content, w) ->
  openai_generate_commit_message host diff language model temperature st
  = (inr (cleaned content),
     {| world := w;
        trace := trace st ++ [EvGetenv (lit "OPENAI_API_KEY");
                              EvChat (request_of host key diff language model temperature)] |}).
Proof.
  intros Hkey Hne Hchat.
  unfold openai_generate_commit_message, bind, getenv.
  rewrite Hkey. cbn [truthy_opt]. rewrite (truthy_cons _ Hne). cbn [negb].
  destruct key as [| c key]; [congruence |]. cbn [or_else].
  unfold chat. cbn [world trace]. rewrite Hchat.
  unfold ret. now rewrite <- app_assoc.
Qed.

(** C10. A dry run with no message of its own and [generate_if_empty] set
    goes through the whole generation before it returns the preview: on a
    diff that is not empty it runs [git diff], reads [OPENAI_API_KEY], fails
    with [MissingCredential] when the key is not set, and otherwise sends
    the request to the completion service and previews the answer.  No
    commit and no push is among the calls. *)
Theorem dry_run_still_generates_the_message
    (path message : str) (signoff : bool) (branch : option str) (remote : str)
    (push allow_main_push staged_only_for_gen : bool)
    (language model : option str) (temperature : option float)
    (st st1 st2 st3 st4 : St) (repo status current_branch diff : str) :
  strip message = [] ->
  ensure_repo host cfg path st = (inr repo, st1) ->
  run_git host [lit "status"; lit "--porcelain"] repo st1 = (inr status, st2) ->
  status <> [] ->
  resolve_branch host branch repo st2 = (inr current_branch, st3) ->
  push && negb allow_main_push && is_protected current_branch = false ->
  run_git host (plain_diff_args staged_only_for_gen) repo st3 = (inr diff, st4) ->
  diff <> [] ->
  let call := commit_and_push host cfg path message signoff branch remote push
                allow_main_push true staged_only_for_gen true language model
                temperature in
  let prepared := truncate (MAX_DIFF_CHARS cfg) (redact_secrets diff) in
  let mdl := or_else model (DEFAULT_OPENAI_MODEL cfg) in
  let temp := match temperature with
              | None => OPENAI_TEMPERATURE cfg
              | Some t => t
              end in
  let getenv_event := EvGetenv (lit "OPENAI_API_KEY") in
  trace st4 = trace st3 ++ [EvRun (lit "git" :: plain_diff_args staged_only_for_gen) repo]
  /\ (truthy_opt (os_getenv host (lit "OPENAI_API_KEY") (world st4)) = false ->
      call st = (inl MissingCredential,
                 {| world := world st4; trace := trace st4 ++ [getenv_event] |}))
  /\ (forall key content w,
        os_getenv host (lit "OPENAI_API_KEY") (world st4) = Some key ->
        key <> [] ->
        chat_completions_create host (request_of host key prepared language mdl temp)
          (world st4) = (inr content, w) ->
        cleaned content <> [] ->
        call st = (inr (DryRunPreview host current_branch remote (cleaned content)),
                   {| world := w;
                      trace := trace st4 ++ [getenv_event;
                                 EvChat (request_of host key prepared language mdl temp)] |})).
Proof.
  intros Hmsg Hrepo Hstatus Hne Hbranch Hgate Hdiff Hdne.
  intros call prepared mdl temp getenv_event.
  assert (Hc :
    call st = match openai_generate_commit_message host prepared language mdl temp st4 with
              | (inr generated, s) =>
                  if negb (truthy generated) then (inl MessageRequired, s)
                  else (inr (DryRunPreview host current_branch remote generated), s)
              | (inl e, s) => (inl e, s)
              end).
  { unfold call, commit_and_push.
    rewrite (bind_inr _ _ _ _ _ Hrepo), (bind_inr _ _ _ _ _ Hstatus).
    rewrite (truthy_cons _ Hne). cbn [negb].
    rewrite (bind_inr _ _ _ _ _ Hbranch). rewrite Hgate.
    unfold resolve_message. rewrite Hmsg. cbn [truthy negb andb].
    unfold bind at 1. unfold bind at 1. rewrite Hdiff.
    rewrite (truthy_cons _ Hdne). cbn [negb].
    unfold bind at 1. fold prepared mdl temp.
    destruct (openai_generate_commit_message host prepared language mdl temp st4)
      as [[e | generated] s]; [reflexivity |].
    unfold ret at 1. destruct (truthy generated); reflexivity. }
  split; [| split].
  - now apply run_git_trace in Hdiff.
  - intros Hkey. rewrite Hc, (generate_without_key _ _ _ _ _ Hkey). reflexivity.
  - intros key content w Hkey Hkne Hchat Hclean.
    rewrite Hc, (generate_with_key _ _ _ _ _ _ _ _ Hkey Hkne Hchat).
    now rewrite (truthy_cons _ Hclean).
Qed.

End Workflow.

Lemma push_to_protected_branch_is_blocked_witness :
  fst (commit_and_push Toy.host Toy.cfg (lit ".") (lit "feat: x") false
         (Some (lit "main")) (lit "origin") true false true true false
         None None None (Toy.start Toy.repo0))
  = inr (Blocked (lit "main")).
Proof.
  refine (f_equal fst (proj1
    (push_to_protected_branch_is_blocked Toy.host Toy.cfg (lit ".") (lit "feat: x")
       false (Some (lit "main")) (lit "origin") true true false None None None
       (Toy.start Toy.repo0) _ _ _ (lit ".") (lit "M  a.txt") (lit "main") _ _ _ _ _))).
  - reflexivity.
  - reflexivity.
  - discriminate.
  - reflexivity.
  - left. reflexivity.
Defined.

(** ** The tools on the small repository *)

(** C2.  [generate_commit_message] prints the diff as git gave it: on the
    small repository the line with the password goes to standard output
    unredacted, although [redact_secrets] would mask it. *)
Theorem generate_commit_message_prints_the_raw_diff :
  fst Toy.describe = inr (lit "testing commit message")
  /\ In (EvPrint (lit "+password=hunter2")) (trace (snd Toy.describe))
  /\ redact_secrets (lit "+password=hunter2") = lit "+password=***".
Proof.
  split; [| split].
  - reflexivity.
  - vm_compute. right. right. left. reflexivity.
  - vm_compute. reflexivity.
Qed.

Section Fallback.

Context {World float : Type}.
Variable host : Host World float.

(** A push that fails after the tracking ref was read is caught by the same
    handler as a missing tracking ref: the push is made again with
    [--set-upstream]. *)
Lemma failed_push_is_pushed_again (repo remote current_branch : str)
    (st st1 st2 : State World float) (tracking : str) (e : exn) :
  run_git host [lit "rev-parse"; lit "--abbrev-ref"; lit "--symbolic-full-name";
                lit "@{u}"] repo st = (inr tracking, st1) ->
  run_git host [lit "push"; remote; current_branch] repo st1 = (inl e, st2) ->
  push_with_upstream host repo remote current_branch st
  = run_git host [lit "push"; lit "--set-upstream"; remote; current_branch] repo st2.
Proof.
  intros Hread Hpush. unfold push_with_upstream, try_except.
  rewrite (bind_inr _ _ _ _ _ Hread), Hpush. reflexivity.
Qed.

End Fallback.

(** C5.  On a repository whose tracking ref is set and whose remote rejects
    the push, [commit_and_push] does not raise the failure of [git push]: it
    pushes again with [--set-upstream] and reports the push as done. *)
Theorem rejected_push_is_retried_with_set_upstream :
  fst Toy.rejected_push = inr (Pushed (lit "origin") (lit "feature"))
  /\ skipn 5 (trace (snd Toy.rejected_push))
     = [ EvRun [lit "git"; lit "rev-parse"; lit "--abbrev-ref";
                lit "--symbolic-full-name"; lit "@{u}"] (lit ".");
         EvRun [lit "git"; lit "push"; lit "origin"; lit "feature"] (lit ".");
         EvRun [lit "git"; lit "push"; lit "--set-upstream"; lit "origin";
                lit "feature"] (lit ".") ]
  /\ fst (run_git Toy.host [lit "push"; lit "origin"; lit "feature"] (lit ".")
            (Toy.start Toy.repo_rejecting))
     = inl (CommandFailed [lit "push"; lit "origin"; lit "feature"]
              (lit "error: failed to push some refs")).
Proof.
  split; [| split]; vm_compute; reflexivity.
Qed.

(** C4 as stated fails when the configured default is negative: with
    [MAX_DIFF_CHARS = -1] the redacted diff of the small repository, 13
    characters, is longer than the cap, and the text returned keeps all but
    its last character before the marker. *)
Lemma get_git_diff_negative_cap_counterexample :
  exists text,
    fst (get_git_diff Toy.host Toy.cfg_negative_cap (lit ".") true 3 None None
           (Toy.start Toy.repo0)) = inr text
    /\ (diff_limit Toy.cfg_negative_cap None
        < Z.of_nat (length (redact_secrets (lit "+password=hunter2"))))%Z
    /\ Z.of_nat (length text)
       <> (diff_limit Toy.cfg_negative_cap None + Z.of_nat (length marker))%Z.
Proof.
  eexists. split; [vm_compute; reflexivity |]. split; vm_compute; congruence.
Qed.

Lemma get_git_diff_truncates_to_cap_witness :
  exists text,
    get_git_diff Toy.host Toy.cfg (lit ".") true 3 None (Some 5%Z) (Toy.start Toy.repo0)
    = (inr text,
       snd (run_git Toy.host (diff_args true 3 None) (lit ".")
              (snd (ensure_repo Toy.host Toy.cfg (lit ".") (Toy.start Toy.repo0)))))
    /\ text = firstn (Z.to_nat (diff_limit Toy.cfg (Some 5%Z)))
                (redact_secrets (lit "+password=hunter2")) ++ marker
    /\ Z.of_nat (length text)
       = (diff_limit Toy.cfg (Some 5%Z) + Z.of_nat (length marker))%Z.
Proof.
  apply (get_git_diff_truncates_to_cap Toy.host Toy.cfg (lit ".") true 3 None
           (Some 5%Z) (Toy.start Toy.repo0)
           (snd (ensure_repo Toy.host Toy.cfg (lit ".") (Toy.start Toy.repo0)))
           _ (lit ".") (lit "+password=hunter2")).
  - reflexivity.
  - reflexivity.
  - discriminate.
  - vm_compute. discriminate.
  - vm_compute. reflexivity.
Defined.

Lemma check_allowed_accepts_any_extension_witness :
  check_allowed Toy.cfg_rooted (lit "/srv/repos" ++ lit "evil/project")
    (Toy.start Toy.repo0)
  = (inr tt, Toy.start Toy.repo0).
Proof.
  apply (check_allowed_accepts_any_extension Toy.cfg_rooted (lit "/srv/repos")
           (lit "evil/project") (Toy.start Toy.repo0)).
  left. reflexivity.
Defined.

Lemma generate_commit_message_is_a_stub_witness :
  fst (generate_commit_message Toy.host Toy.cfg (lit ".") true
         (Some (lit "French")) None None (Toy.start Toy.repo0))
  = inr (lit "testing commit message").
Proof.
  refine (f_equal fst (proj1
    (generate_commit_message_is_a_stub Toy.host Toy.cfg (lit ".") true
       (Some (lit "French")) None None (Toy.start Toy.repo0) _ _ (lit ".")
       (lit "+password=hunter2") _ _ _))).
  - reflexivity.
  - reflexivity.
  - discriminate.
Defined.

Lemma missing_remote_fails_after_the_commit_witness :
  fst (commit_and_push Toy.host Toy.cfg (lit ".") (lit "feat: x") false None
         (lit "upstream") true false true true false None None None
         (Toy.start Toy.repo0))
  = inl (RemoteNotFound (lit "upstream"))
  /\ Toy.commits (world (snd
        (commit_and_push Toy.host Toy.cfg (lit ".") (lit "feat: x") false None
           (lit "upstream") true false true true false None None None
           (Toy.start Toy.repo0))))
     = [lit "feat: x"].
Proof.
  split; [| vm_compute; reflexivity].
  refine (f_equal fst (proj1
    (missing_remote_fails_after_the_commit Toy.host Toy.cfg (lit ".") (lit "feat: x")
       false None (lit "upstream") false true true None None None
       (Toy.start Toy.repo0) _ _ _ _ _ _
       (lit ".") (lit "M  a.txt") (lit "feature") (lit "feat: x") [] (lit "origin")
       _ _ _ _ _ _ _ _ _ _))).
  - reflexivity.
  - reflexivity.
  - discriminate.
  - reflexivity.
  - reflexivity.
  - reflexivity.
  - discriminate.
  - reflexivity.
  - reflexivity.
  - reflexivity.
Defined.

Lemma dry_run_still_generates_the_message_witness :
  fst (commit_and_push Toy.host Toy.cfg (lit ".") (lit "  ") false None
         (lit "origin") true false true true true None None None
         (Toy.start Toy.repo0))
  = inr (DryRunPreview Toy.host (lit "feature") (lit "origin")
           (lit "feat: add settings")).
Proof.
  refine (f_equal fst (proj2 (proj2
    (dry_run_still_generates_the_message Toy.host Toy.cfg (lit ".") (lit "  ")
       false None (lit "origin") true false true None None None
       (Toy.start Toy.repo0) _ _ _ _
       (lit ".") (lit "M  a.txt") (lit "feature") (lit "+password=hunter2")
       _ _ _ _ _ _ _ _))
    (lit "sk-test") (lit "`feat: add settings`") Toy.repo0 _ _ _ _)).
  - reflexivity.
  - reflexivity.
  - reflexivity.
  - discriminate.
  - reflexivity.
  - reflexivity.
  - reflexivity.
  - discriminate.
  - reflexivity.
  - discriminate.
  - reflexivity.
  - vm_compute. discriminate.
Defined.

(** ** The matcher and the declarative reading *)

Lemma greedy_sound p k : forall s l h rest,
  greedy p l h k s = Some rest ->
  exists a b, s = a ++ b /\ forallb p a = true /\ l <= length a
              /\ within h (length a) /\ k b = Some rest.
Proof.
  assert (Hstop : forall s l h rest,
            match l with 0 => k s | S _ => None end = Some rest ->
            exists a b, s = a ++ b /\ forallb p a = true /\ l <= length a
                        /\ within h (length a) /\ k b = Some rest).
  { intros s l h rest H. destruct l; [| discriminate].
    exists [], s. repeat split; auto. destruct h; cbn; lia. }
  induction s as [| c s IH]; intros l h rest H; cbn [greedy] in H.
  - now apply Hstop.
  - destruct (p c && more h) eqn:E; [| now apply Hstop].
    destruct (greedy p (pred l) (less h) k s) as [r |] eqn:G; [| now apply Hstop].
    inversion H; subst r; clear H.
    apply IH in G as (a & b & -> & Ha & Hl & Hh & Hk).
    apply andb_prop in E as [Hc Hm].
    exists (c :: a), b. cbn [app forallb length]. rewrite Hc, Ha.
    repeat split; auto; [lia |].
    destruct h as [[| m] |]; cbn in *; try discriminate; lia.
Qed.

Lemma greedy_complete p k b : k b <> None ->
  forall a l h, forallb p a = true -> l <= length a -> within h (length a) ->
  greedy p l h k (a ++ b) <> None.
Proof.
  intros Hk. induction a as [| c a IH]; intros l h Ha Hl Hh.
  - cbn [length] in Hl. assert (l = 0) by lia. subst l. cbn [app].
    destruct b as [| c b']; cbn [greedy]; [assumption |].
    destruct (p c && more h); [| assumption].
    now destruct (greedy p (pred 0) (less h) k b').
  - cbn [forallb] in Ha. apply andb_prop in Ha as [Hc Ha].
    cbn [app greedy]. rewrite Hc.
    assert (Hm : more h = true) by (destruct h as [[| m] |]; cbn in *; auto; lia).
    rewrite Hm. cbn [andb].
    specialize (IH (pred l) (less h) Ha).
    destruct (greedy p (pred l) (less h) k (a ++ b)); [discriminate |].
    exfalso. apply IH; [cbn [length] in Hl; lia | | reflexivity].
    destruct h as [m |]; cbn in *; lia.
Qed.

(** A match consumes a text of the shape of the pattern. *)
Lemma re_match_sound : forall r s rest,
  re_match r s = Some rest -> exists w, s = w ++ rest /\ shape r w.
Proof.
  induction r as [| n r IH]; intros s rest H; cbn [re_match] in H.
  - inversion H. now exists [].
  - apply greedy_sound in H as (a & b & -> & Ha & Hl & Hh & Hk).
    apply IH in Hk as (w & -> & Hw).
    exists (a ++ w). rewrite app_assoc. split; [reflexivity |].
    cbn [shape]. now exists a, w.
Qed.

(** Backtracking misses nothing: where a text of the shape of the pattern
    starts, the matcher finds a match. *)
Lemma re_match_complete : forall r w x, shape r w -> re_match r (w ++ x) <> None.
Proof.
  induction r as [| n r IH]; intros w x H; cbn [shape] in H; cbn [re_match].
  - discriminate.
  - destruct H as (a & b & -> & Ha & Hl & Hh & Hb).
    rewrite <- app_assoc. apply greedy_complete; auto.
Qed.

(** A match that starts in [u] and a text [z] after it: when every way of
    going on into [z] is also a way of going on into [z'], the pattern
    matches at the same place with [z'] after [u]. *)
Lemma transfer : forall r u z z',
  carries r z z' -> re_match r (u ++ z) <> None -> re_match r (u ++ z') <> None.
Proof.
  intros r u z z' Hc H.
  destruct (re_match r (u ++ z)) as [rest |] eqn:E; [clear H | congruence].
  apply re_match_sound in E as (w & E & Hw).
  revert u w Hc E Hw.
  induction r as [| n r IH]; intros u w Hc E Hw; [discriminate |].
  cbn [shape] in Hw. destruct Hw as (a & b & -> & Ha & Hl & Hh & Hb).
  cbn [carries] in Hc. destruct Hc as [Hn Hc].
  rewrite <- app_assoc in E.
  apply app_eq_app in E as (l & [[-> E] | [-> E]]).
  - (* the first node ends inside [u] *)
    rewrite <- app_assoc. cbn [re_match]. apply greedy_complete; auto.
    apply (IH l b Hc); [symmetry; assumption | assumption].
  - (* the first node goes over the boundary *)
    rewrite forallb_app in Ha. apply andb_prop in Ha as [Hu Hl'].
    rewrite length_app in Hl, Hh.
    assert (Hz : re_match (residual n (length u) :: r) z <> None).
    { rewrite E. cbn [re_match residual cls lo hi].
      apply greedy_complete; auto; [now apply re_match_complete | lia |].
      destruct (hi n); cbn in *; lia. }
    apply Hn in Hz.
    destruct (re_match (residual n (length u) :: r) z') as [rest' |] eqn:E';
      [clear Hz | congruence].
    cbn [re_match residual cls lo hi] in E'.
    apply greedy_sound in E' as (a' & b' & -> & Ha' & Hl2 & Hh2 & Hk).
    cbn [re_match]. rewrite app_assoc. apply greedy_complete.
    + congruence.
    + rewrite forallb_app, Hu, Ha'. reflexivity.
    + rewrite length_app. lia.
    + rewrite length_app. destruct (hi n); cbn in *; lia.
Qed.

Lemma greedy_total p h s : greedy p 0 h (re_match []) s <> None.
Proof.
  revert h. induction s as [| c s IH]; intros h; cbn [greedy]; [discriminate |].
  destruct (p c && more h); [| discriminate].
  now destruct (greedy p (pred 0) (less h) (re_match []) s).
Qed.

Lemma greedy_last p : forall s l rest,
  greedy p l None (re_match []) s = Some rest ->
  stops (fun c => negb (p c)) rest = true.
Proof.
  induction s as [| c s IH]; intros l rest H; cbn [greedy more less] in H.
  - destruct l; inversion H. reflexivity.
  - destruct (p c) eqn:Hc; cbn [andb] in H.
    + destruct (greedy p (pred l) None (re_match []) s) as [r |] eqn:G.
      * inversion H; subst r. eapply IH; eassumption.
      * destruct l; [| discriminate]. exfalso. now apply (greedy_total p None s).
    + destruct l; inversion H. cbn [stops]. now rewrite Hc.
Qed.

(** After a pattern that ends in an unbounded repetition, the text goes on
    with a character outside the class of that repetition, or ends. *)
Lemma re_match_last p l : forall r s rest,
  re_match (r ++ [Rep p l None]) s = Some rest ->
  stops (fun c => negb (p c)) rest = true.
Proof.
  induction r as [| n r IH]; intros s rest H.
  - cbn [app re_match cls lo hi] in H. eapply greedy_last; eassumption.
  - cbn [app re_match] in H.
    apply greedy_sound in H as (a & b & _ & _ & _ & _ & Hk). eapply IH; eassumption.
Qed.

Lemma greedy_stops p h k x :
  stops (fun c => negb (p c)) x = true -> greedy p 0 h k x = k x.
Proof.
  destruct x as [| c x]; cbn [stops greedy]; [reflexivity |].
  intros H. apply negb_true_iff in H. now rewrite H.
Qed.

(** *** One step of the matcher on one character *)

Section Steps.

Variables (p : ascii -> bool) (r : regex) (c : ascii) (s : str).

Lemma step_zero : re_match (Rep p 0 (Some 0) :: r) s = re_match r s.
Proof.
  cbn [re_match cls lo hi]. destruct s as [| c' s']; cbn [greedy more]; [reflexivity |].
  now rewrite andb_false_r.
Qed.

Lemma step_one : p c = true ->
  re_match (Rep p 1 (Some 1) :: r) (c :: s) = re_match r s.
Proof.
  intros H. cbn [re_match greedy cls lo hi more less pred]. rewrite H. cbn [andb].
  destruct s as [| c' s']; cbn [greedy more andb]; [now destruct (re_match r []) |].
  rewrite andb_false_r. now destruct (re_match r (c' :: s')).
Qed.

Lemma step_fail l h : p c = false ->
  re_match (Rep p (S l) h :: r) (c :: s) = None.
Proof. intros H. cbn [re_match greedy cls lo hi]. now rewrite H. Qed.

Lemma step_skip h : p c = false ->
  re_match (Rep p 0 h :: r) (c :: s) = re_match r (c :: s).
Proof. intros H. cbn [re_match greedy cls lo hi]. now rewrite H. Qed.

Lemma step_take l : p c = true ->
  re_match (Rep p l None :: r) (c :: s)
  = match re_match (Rep p (pred l) None :: r) s with
    | Some x => Some x
    | None => match l with 0 => re_match r (c :: s) | S _ => None end
    end.
Proof. intros H. cbn [re_match greedy cls lo hi more less]. now rewrite H. Qed.

Lemma step_stop h x : stops (fun a => negb (p a)) x = true ->
  re_match (Rep p 0 h :: r) x = re_match r x.
Proof. intros H. cbn [re_match cls lo hi]. now apply greedy_stops. Qed.

End Steps.

Lemma first_char a r z : re_match (ichar a :: r) z <> None ->
  exists c y, z = c :: y /\ Ascii.eqb (tolower c) (tolower a) = true.
Proof.
  intros H. destruct z as [| c y].
  - exfalso. apply H. reflexivity.
  - exists c, y. split; [reflexivity |].
    destruct (Ascii.eqb (tolower c) (tolower a)) eqn:E; [reflexivity |].
    exfalso. apply H. unfold ichar. now rewrite step_fail.
Qed.

(** A character that is a lower-case letter up to case is that letter or
    its capital. *)
Lemma letter_cases (a c : ascii) :
  is_lower a = true -> Ascii.eqb (tolower c) (tolower a) = true ->
  c = a \/ c = chr (ord a - 32).
Proof.
  intros Ha H. apply Ascii.eqb_eq in H.
  assert (Ea : tolower a = a).
  { unfold tolower. destruct (is_upper a) eqn:U; [| reflexivity].
    unfold is_upper, is_lower, in_range in *.
    apply andb_prop in Ha as [H1 _]. apply andb_prop in U as [_ H2].
    apply Nat.leb_le in H1, H2. lia. }
  rewrite Ea in H. unfold tolower in H.
  destruct (is_upper c) eqn:U; [right | now left].
  rewrite <- H. unfold chr, ord. rewrite nat_ascii_embedding.
  - rewrite Nat.add_sub. now rewrite ascii_nat_embedding.
  - unfold is_upper, in_range in U. apply andb_prop in U as [_ H2].
    apply Nat.leb_le in H2. unfold ord in H2. lia.
Qed.

(** ** Substitution *)

Section Substitution.

Variable r : regex.
Variable repl : str.

Lemma sub_from_skip : forall n s, n <= length s ->
  sub_from n r repl s = sub_from 0 r repl (skipn n s).
Proof.
  induction n as [| n IH]; intros s Hn; [reflexivity |].
  destruct s as [| c s]; cbn [length] in Hn; [lia |].
  cbn [sub_from skipn]. apply IH. lia.
Qed.

Lemma re_sub_nil : re_match r [] = None -> re_sub r repl [] = [].
Proof. intros H. unfold re_sub. cbn [sub_from]. now rewrite H. Qed.

Lemma re_sub_nomatch c s :
  re_match r (c :: s) = None -> re_sub r repl (c :: s) = c :: re_sub r repl s.
Proof. intros H. unfold re_sub. cbn [sub_from]. now rewrite H. Qed.

Lemma re_sub_match w rest :
  w <> [] -> re_match r (w ++ rest) = Some rest ->
  re_sub r repl (w ++ rest) = repl ++ re_sub r repl rest.
Proof.
  intros Hw H. destruct w as [| c w]; [congruence |].
  unfold re_sub. cbn [app sub_from]. cbn [app] in H. rewrite H.
  cbn [length]. rewrite length_app.
  replace (S (length w + length rest) - length rest) with (S (length w)) by lia.
  rewrite sub_from_skip by (rewrite length_app; lia).
  now rewrite skipn_app, skipn_all, Nat.sub_diag.
Qed.

(** Where the pattern matches nowhere, the substitution changes nothing. *)
Lemma re_sub_unchanged s : re_search r s = false -> re_sub r repl s = s.
Proof.
  induction s as [| c s IH]; cbn [re_search]; intros H.
  - destruct (re_match r []) eqn:E; [discriminate |]. now apply re_sub_nil.
  - destruct (re_match r (c :: s)) eqn:E; [discriminate |].
    rewrite re_sub_nomatch by assumption. now rewrite IH.
Qed.

Hypothesis r_empty : re_match r [] = None.

Lemma match_nonempty s rest :
  re_match r s = Some rest -> exists w, w <> [] /\ s = w ++ rest.
Proof.
  intros H. apply re_match_sound in H as (w & -> & Hw). exists w. split; [| reflexivity].
  intros ->. apply (re_match_complete r [] []) in Hw. now apply Hw.
Qed.

(** The scan up to the first match. *)
Lemma scan_first : forall t,
  re_sub r repl t = t
  \/ exists seg m rest, t = seg ++ m ++ rest /\ m <> []
       /\ re_match r (m ++ rest) = Some rest
       /\ re_sub r repl t = seg ++ repl ++ re_sub r repl rest.
Proof.
  induction t as [| c t IH].
  - left. now apply re_sub_nil.
  - destruct (re_match r (c :: t)) as [rest |] eqn:E.
    + right. destruct (match_nonempty _ _ E) as (w & Hw & Et).
      exists [], w, rest. rewrite Et in *. cbn [app].
      repeat split; auto. now apply re_sub_match.
    + rewrite re_sub_nomatch by assumption.
      destruct IH as [IH | (seg & m & rest & -> & Hm & Hmatch & Hsub)].
      * left. now rewrite IH.
      * right. exists (c :: seg), m, rest. cbn [app]. rewrite Hsub. auto.
Qed.

(** A stretch of text in which the pattern starts nowhere is copied. *)
Lemma re_sub_clear w x :
  (forall i, i < length w -> re_match r (skipn i w ++ x) = None) ->
  re_sub r repl (w ++ x) = w ++ re_sub r repl x.
Proof.
  induction w as [| c w IH]; intros H; [reflexivity |].
  cbn [app]. rewrite re_sub_nomatch.
  - f_equal. apply IH. intros i Hi. apply (H (S i)). cbn [length]. lia.
  - apply (H 0). cbn [length]. lia.
Qed.

End Substitution.

Lemma only_self_tail r repl w o : only_self r repl (w ++ o) -> only_self r repl o.
Proof.
  intros H pre suf rest E. apply (H (w ++ pre)). now rewrite E, app_assoc.
Qed.

(** Text in which the rule matches only its own replacement is left as it
    is. *)
Lemma only_self_fixed (r : regex) (repl : str) :
  re_match r [] = None -> repl <> [] ->
  forall o, only_self r repl o -> re_sub r repl o = o.
Proof.
  intros Hempty Hrepl o. remember (length o) as n eqn:Hn.
  revert o Hn. induction n as [n IH] using lt_wf_ind. intros o Hn Ho.
  destruct o as [| c o]; [now apply re_sub_nil |].
  destruct (re_match r (c :: o)) as [rest |] eqn:E.
  - pose proof (Ho [] (c :: o) rest eq_refl E) as Eo.
    rewrite Eo in E |- *. rewrite re_sub_match by assumption.
    f_equal. apply (IH (length rest)); [| reflexivity |].
    + subst n. rewrite Eo, length_app. destruct repl; [congruence | cbn; lia].
    + apply (only_self_tail r repl repl). now rewrite <- Eo.
  - rewrite re_sub_nomatch by assumption. f_equal.
    apply (IH (length o)); [subst n; cbn; lia | reflexivity |].
    now apply (only_self_tail r repl [c]).
Qed.

(** ** A rule whose mask matches the rule itself

    The rule [R] with replacement [P]: matches start with a character of
    [first] and end before a character of [stop]; [P] followed by such a
    character is matched as [P], no match starts inside [P], and text that
    goes on with [P] is matched no more often than text that goes on with a
    match of [R]. *)

Section Masking.

Variable R : regex.
Variable P : str.
Variables first stop : ascii -> bool.

Hypothesis R_first : forall c s, re_match R (c :: s) <> None -> first c = true.
Hypothesis R_empty : re_match R [] = None.
Hypothesis R_rest : forall s rest, re_match R s = Some rest -> stops stop rest = true.
Hypothesis stop_first : forall c, stop c = true -> first c = false.
Hypothesis P_self : forall x, stops stop x = true -> re_match R (P ++ x) = Some x.
Hypothesis P_inside :
  forall i x, 0 < i < length P -> re_match R (skipn i P ++ x) = None.
Hypothesis P_carry :
  forall x z', re_match R z' <> None -> carries R (P ++ x) z'.

Lemma no_match_at_stop c s : stop c = true -> re_match R (c :: s) = None.
Proof.
  intros Hc. destruct (re_match R (c :: s)) eqn:E; [| reflexivity].
  assert (first c = true) by (apply (R_first c s); congruence).
  rewrite (stop_first c Hc) in *. discriminate.
Qed.

Lemma stops_re_sub x : stops stop x = true -> stops stop (re_sub R P x) = true.
Proof.
  destruct x as [| c x]; intros H.
  - now rewrite re_sub_nil.
  - cbn [stops] in H. rewrite re_sub_nomatch by now apply no_match_at_stop.
    exact H.
Qed.

(** After the substitution, the rule matches only its own mask. *)
Lemma re_sub_only_self : forall t, only_self R P (re_sub R P t).
Proof.
  intros t. remember (length t) as n eqn:Hn.
  revert t Hn. induction n as [n IH] using lt_wf_ind. intros t Hn.
  destruct t as [| c t].
  - rewrite re_sub_nil by assumption.
    intros pre suf rest E H. destruct pre; destruct suf; try discriminate.
    congruence.
  - destruct (re_match R (c :: t)) as [rest |] eqn:E.
    + (* a match at the head *)
      destruct (match_nonempty R R_empty _ _ E) as (w & Hw & Et). rewrite Et in *.
      rewrite re_sub_match by assumption.
      assert (Hlen : length rest < n).
      { subst n. rewrite length_app. destruct w; [congruence | cbn; lia]. }
      specialize (IH _ Hlen rest eq_refl).
      assert (Hstop : stops stop (re_sub R P rest) = true)
        by (apply stops_re_sub; eapply R_rest; eassumption).
      intros pre suf rest2 Eo Hm.
      destruct (Nat.le_gt_cases (length P) (length pre)) as [Hge | Hlt].
      * (* after the mask *)
        apply (f_equal (skipn (length P))) in Eo as Eo'.
        rewrite skipn_app, skipn_all, Nat.sub_diag in Eo'. cbn [app skipn] in Eo'.
        rewrite skipn_app in Eo'.
        replace (length P - length pre) with 0 in Eo' by lia. cbn [skipn] in Eo'.
        exact (IH _ _ _ Eo' Hm).
      * destruct pre as [| p pre].
        -- cbn [app] in Eo. subst suf. rewrite (P_self _ Hstop) in Hm.
           now inversion Hm.
        -- exfalso.
           assert (Es : suf = skipn (length (p :: pre)) P ++ re_sub R P rest).
           { apply (f_equal (skipn (length (p :: pre)))) in Eo.
             rewrite skipn_app in Eo.
             replace (length (p :: pre) - length P) with 0 in Eo by lia.
             rewrite skipn_app, skipn_all, Nat.sub_diag in Eo. cbn [skipn app] in Eo.
             now symmetry. }
           rewrite Es, P_inside in Hm; [discriminate | cbn [length] in *; lia].
    + (* no match at the head *)
      rewrite re_sub_nomatch by assumption.
      assert (IHt := IH (length t) ltac:(subst n; cbn; lia) t eq_refl).
      intros pre suf rest2 Eo Hm.
      destruct pre as [| p pre].
      * exfalso. cbn [app] in Eo. subst suf.
        destruct (scan_first R P R_empty t)
          as [Hsame | (seg & m & rest & Et & Hne & Hmatch & Hsub)].
        -- rewrite Hsame in Hm. congruence.
        -- rewrite Hsub in Hm.
           assert (Hgo : re_match R ((c :: seg) ++ m ++ rest) <> None).
           { apply transfer with (z := P ++ re_sub R P rest).
             - apply P_carry. congruence.
             - cbn [app]. congruence. }
           apply Hgo. rewrite Et in E. exact E.
      * cbn [app] in Eo. inversion Eo; subst p. exact (IHt _ _ _ H1 Hm).
Qed.

(** *** Another rule applied afterwards

    The rule [S] with replacement [Q] is applied to text in which [R]
    matches only its mask [P]: [S] starts neither inside [P] nor at a
    character of [stop], [R] starts nowhere in [Q], and text that goes on
    with [Q] is matched by [R] no more often than text that goes on with a
    match of [S]. *)

Variable S : regex.
Variable Q : str.

Hypothesis S_empty : re_match S [] = None.
Hypothesis S_stop : forall c s, stop c = true -> re_match S (c :: s) = None.
Hypothesis P_clear :
  forall i x, i < length P -> re_match S (skipn i P ++ x) = None.
Hypothesis Q_inside :
  forall i x, i < length Q -> re_match R (skipn i Q ++ x) = None.
Hypothesis Q_carry :
  forall x z', re_match S z' <> None -> carries R (Q ++ x) z'.

Lemma stops_re_sub_other x : stops stop x = true -> stops stop (re_sub S Q x) = true.
Proof.
  destruct x as [| c x]; intros H.
  - now rewrite re_sub_nil.
  - cbn [stops] in H. rewrite re_sub_nomatch by now apply S_stop.
    exact H.
Qed.

Lemma only_self_kept : forall y, only_self R P y -> only_self R P (re_sub S Q y).
Proof.
  intros y. remember (length y) as n eqn:Hn.
  revert y Hn. induction n as [n IH] using lt_wf_ind. intros y Hn Hy.
  destruct y as [| c y].
  - now rewrite re_sub_nil.
  - destruct (re_match S (c :: y)) as [rest |] eqn:E.
    + (* a match of [S] at the head *)
      destruct (match_nonempty S S_empty _ _ E) as (w & Hw & Ey). rewrite Ey in *.
      rewrite re_sub_match by assumption.
      assert (Hlen : length rest < n).
      { subst n. rewrite length_app. destruct w; [congruence | cbn; lia]. }
      specialize (IH _ Hlen rest eq_refl (only_self_tail R P w rest Hy)).
      intros pre suf rest2 Eo Hm.
      destruct (Nat.le_gt_cases (length Q) (length pre)) as [Hge | Hlt].
      * apply (f_equal (skipn (length Q))) in Eo as Eo'.
        rewrite skipn_app, skipn_all, Nat.sub_diag in Eo'. cbn [app skipn] in Eo'.
        rewrite skipn_app in Eo'.
        replace (length Q - length pre) with 0 in Eo' by lia. cbn [skipn] in Eo'.
        exact (IH _ _ _ Eo' Hm).
      * exfalso.
        assert (Es : suf = skipn (length pre) Q ++ re_sub S Q rest).
        { apply (f_equal (skipn (length pre))) in Eo.
          rewrite skipn_app in Eo.
          replace (length pre - length Q) with 0 in Eo by lia.
          rewrite skipn_app, skipn_all, Nat.sub_diag in Eo. cbn [skipn app] in Eo.
          now symmetry. }
        rewrite Es, Q_inside in Hm; [discriminate | assumption].
    + (* no match of [S] at the head *)
      assert (IHy := IH (length y) ltac:(subst n; cbn; lia) y eq_refl
                        (only_self_tail R P [c] y Hy)).
      intros pre suf rest2 Eo Hm.
      destruct pre as [| p pre].
      * cbn [app] in Eo. subst suf.
        assert (Hgo : re_match R (c :: y) <> None).
        { rewrite re_sub_nomatch in Hm by assumption.
          destruct (scan_first S Q S_empty y)
            as [Hsame | (seg & m & rest & Ey & Hne & Hmatch & Hsub)].
          - rewrite Hsame in Hm. congruence.
          - rewrite Hsub in Hm. rewrite Ey.
            apply (transfer R (c :: seg) (Q ++ re_sub S Q rest) (m ++ rest)).
            + apply Q_carry. congruence.
            + cbn [app]. congruence. }
        destruct (re_match R (c :: y)) as [rest_y |] eqn:Ery; [clear Hgo | congruence].
        pose proof (Hy [] (c :: y) rest_y eq_refl Ery) as Ecy.
        pose proof (R_rest _ _ Ery) as Hstop.
        rewrite Ecy in Hm |- *.
        rewrite re_sub_clear in Hm |- * by (intros i Hi; now apply P_clear).
        rewrite (P_self _ (stops_re_sub_other _ Hstop)) in Hm.
        now inversion Hm.
      * rewrite re_sub_nomatch in Eo by assumption.
        cbn [app] in Eo. inversion Eo; subst p. exact (IHy _ _ _ H1 Hm).
Qed.

End Masking.

(** ** The password rule and the generic secret rule *)

Ltac explode_re :=
  cbv [bearer_re password_re secret_re assignment_re iword ichar star plus opt
       at_least lit list_ascii_of_string map app].

Ltac step :=
  first [ rewrite step_zero
        | rewrite step_one by (vm_compute; reflexivity)
        | rewrite step_skip by (vm_compute; reflexivity)
        | rewrite step_take by (vm_compute; reflexivity); cbn [pred] ].

(* The pattern does not get as far as the open end of the text. *)
Ltac reject H := exfalso; apply H; vm_compute; reflexivity.

(* The pattern gets to its last, unbounded node, which never fails. *)
Ltac accept :=
  repeat step;
  repeat match goal with
  | |- context [re_match [Rep ?p 0 None] ?y] =>
      let E := fresh "E" in
      destruct (re_match [Rep p 0 None] y) eqn:E;
      [| exfalso; exact (greedy_total p None y E)]
  end;
  discriminate.

(* [carries] for a pattern and a mask, when the text on the other side
   starts with the letter [a] in either case. *)
Ltac carry a Hm :=
  match type of Hm with
  | re_match _ ?z <> None =>
      let Hz := fresh "Hz" in let c := fresh "c" in let y := fresh "y" in
      let Hc := fresh "Hc" in
      assert (Hz := Hm);
      apply (first_char a) in Hz as (c & y & -> & Hc);
      apply letter_cases in Hc; [| reflexivity];
      revert Hm; explode_re; intros Hm; cbn [carries];
      repeat split; intros j H; destruct j as [| [| j]];
      unfold residual in *; cbn [cls lo hi option_map Nat.sub] in *;
      first [ exact Hm | reject H | destruct Hc as [-> | ->]; accept ]
  end.

Ltac inside i Hi :=
  first [ solve [cbn in Hi; lia]
        | destruct i as [| i];
          [first [solve [cbn in Hi; lia] | vm_compute; reflexivity] | inside i Hi] ].

Lemma sp_or_nl_cases c : sp_or_nl c = true -> c = SP \/ c = NL.
Proof.
  unfold sp_or_nl, not_space_nl. rewrite negb_involutive. intros H.
  apply orb_prop in H as [H | H]; apply Ascii.eqb_eq in H; auto.
Qed.

Lemma assignment_rest key s rest :
  re_match (assignment_re key) s = Some rest -> stops sp_or_nl rest = true.
Proof.
  unfold assignment_re. rewrite !app_assoc. apply re_match_last.
Qed.

Lemma password_first c s :
  re_match password_re (c :: s) <> None -> Ascii.eqb (tolower c) "p" = true.
Proof.
  intros H. apply (first_char "p") in H as (c' & y & E & Hc).
  now inversion E; subst.
Qed.

Lemma secret_first c s :
  re_match secret_re (c :: s) <> None -> Ascii.eqb (tolower c) "s" = true.
Proof.
  intros H. apply (first_char "s") in H as (c' & y & E & Hc).
  now inversion E; subst.
Qed.

Lemma password_self x :
  stops sp_or_nl x = true -> re_match password_re (lit "password=***" ++ x) = Some x.
Proof.
  intros H. explode_re. repeat step. rewrite step_stop by exact H. reflexivity.
Qed.

Lemma secret_self x :
  stops sp_or_nl x = true -> re_match secret_re (lit "secret=***" ++ x) = Some x.
Proof.
  intros H. explode_re. repeat step. rewrite step_stop by exact H. reflexivity.
Qed.

Lemma password_inside i x : 0 < i < length (lit "password=***") ->
  re_match password_re (skipn i (lit "password=***") ++ x) = None.
Proof. intros Hi. inside i Hi. Qed.

Lemma secret_inside i x : 0 < i < length (lit "secret=***") ->
  re_match secret_re (skipn i (lit "secret=***") ++ x) = None.
Proof. intros Hi. inside i Hi. Qed.

Lemma password_carry x z' :
  re_match password_re z' <> None -> carries password_re (lit "password=***" ++ x) z'.
Proof. intros Hm. carry "p"%char Hm. Qed.

Lemma secret_carry x z' :
  re_match secret_re z' <> None -> carries secret_re (lit "secret=***" ++ x) z'.
Proof. intros Hm. carry "s"%char Hm. Qed.

(** The secret rule against the mask of the password rule, and back. *)

Lemma secret_not_in_password_mask i x : i < length (lit "password=***") ->
  re_match secret_re (skipn i (lit "password=***") ++ x) = None.
Proof. intros Hi. inside i Hi. Qed.

Lemma password_not_in_secret_mask i x : i < length (lit "secret=***") ->
  re_match password_re (skipn i (lit "secret=***") ++ x) = None.
Proof. intros Hi. inside i Hi. Qed.

Lemma password_carry_secret x z' :
  re_match secret_re z' <> None -> carries password_re (lit "secret=***" ++ x) z'.
Proof. intros Hm. carry "s"%char Hm. Qed.

Lemma stop_not_first (a : ascii) (Ha : is_lower a = true) c :
  sp_or_nl c = true -> Ascii.eqb (tolower c) a = false.
Proof.
  intros Hc. apply Ascii.eqb_neq. intros E. subst a.
  apply sp_or_nl_cases in Hc as [-> | ->]; vm_compute in Ha; discriminate.
Qed.

Lemma secret_not_at_stop c s : sp_or_nl c = true -> re_match secret_re (c :: s) = None.
Proof.
  intros Hc. destruct (re_match secret_re (c :: s)) eqn:E; [| reflexivity].
  assert (H : Ascii.eqb (tolower c) "s" = true) by (apply (secret_first c s); congruence).
  rewrite (stop_not_first "s" eq_refl c Hc) in H. discriminate.
Qed.

(** Once the password rule was applied, it matches only [password=***]. *)
Lemma password_only_self t :
  only_self password_re (lit "password=***") (re_sub password_re (lit "password=***") t).
Proof.
  apply (re_sub_only_self password_re (lit "password=***")
           (fun c => Ascii.eqb (tolower c) "p") sp_or_nl).
  - exact password_first.
  - reflexivity.
  - apply assignment_rest.
  - exact (stop_not_first "p" eq_refl).
  - exact password_self.
  - exact password_inside.
  - exact password_carry.
Qed.

(** Once the secret rule was applied, it matches only [secret=***]. *)
Lemma secret_only_self t :
  only_self secret_re (lit "secret=***") (re_sub secret_re (lit "secret=***") t).
Proof.
  apply (re_sub_only_self secret_re (lit "secret=***")
           (fun c => Ascii.eqb (tolower c) "s") sp_or_nl).
  - exact secret_first.
  - reflexivity.
  - apply assignment_rest.
  - exact (stop_not_first "s" eq_refl).
  - exact secret_self.
  - exact secret_inside.
  - exact secret_carry.
Qed.

(** The secret rule leaves the password rule with nothing but its mask. *)
Lemma password_only_self_after_secret y :
  only_self password_re (lit "password=***") y ->
  only_self password_re (lit "password=***") (re_sub secret_re (lit "secret=***") y).
Proof.
  apply (only_self_kept password_re (lit "password=***") sp_or_nl).
  - apply assignment_rest.
  - exact password_self.
  - reflexivity.
  - exact secret_not_at_stop.
  - exact secret_not_in_password_mask.
  - exact password_not_in_secret_mask.
  - exact password_carry_secret.
Qed.

(** ** A rule that finds nothing after a substitution

    The rule [S] with replacement [Q] is applied to a text in which the
    rule [R] matches only where [S] does: [R] starts nowhere in [Q], and
    text that goes on with [Q] is matched by [R] no more often than text
    that goes on with a match of [S]. *)

Lemma no_match_tail r w o : no_match r (w ++ o) -> no_match r o.
Proof. intros H pre suf E. apply (H (w ++ pre)). now rewrite E, app_assoc. Qed.

Lemma no_match_search r o : no_match r o -> re_search r o = false.
Proof.
  induction o as [| c o IH]; intros H; cbn [re_search].
  - now rewrite (H [] [] eq_refl).
  - rewrite (H [] (c :: o) eq_refl). apply IH. now apply (no_match_tail r [c]).
Qed.

Section Untouched.

Variables R S : regex.
Variable Q : str.

Hypothesis R_empty : re_match R [] = None.
Hypothesis S_empty : re_match S [] = None.
Hypothesis Q_inside :
  forall i x, i < length Q -> re_match R (skipn i Q ++ x) = None.
Hypothesis Q_carry :
  forall x z', re_match S z' <> None -> carries R (Q ++ x) z'.

Lemma re_sub_no_match : forall y,
  (forall pre suf, y = pre ++ suf -> re_match R suf <> None -> re_match S suf <> None) ->
  no_match R (re_sub S Q y).
Proof.
  intros y. remember (length y) as n eqn:Hn.
  revert y Hn. induction n as [n IH] using lt_wf_ind. intros y Hn Hy.
  destruct y as [| c y].
  - rewrite re_sub_nil by assumption.
    intros pre suf E. destruct pre; destruct suf; try discriminate. assumption.
  - destruct (re_match S (c :: y)) as [rest |] eqn:E.
    + (* a match of [S] at the head *)
      destruct (match_nonempty S S_empty _ _ E) as (w & Hw & Ey). rewrite Ey in *.
      rewrite re_sub_match by assumption.
      assert (Hlen : length rest < n).
      { subst n. rewrite length_app. destruct w; [congruence | cbn; lia]. }
      assert (Hrest : forall pre suf, rest = pre ++ suf ->
                re_match R suf <> None -> re_match S suf <> None).
      { intros pre suf Er. apply (Hy (w ++ pre)). now rewrite Er, app_assoc. }
      specialize (IH _ Hlen rest eq_refl Hrest).
      intros pre suf Eo.
      destruct (Nat.le_gt_cases (length Q) (length pre)) as [Hge | Hlt].
      * apply (f_equal (skipn (length Q))) in Eo as Eo'.
        rewrite skipn_app, skipn_all, Nat.sub_diag in Eo'. cbn [app skipn] in Eo'.
        rewrite skipn_app in Eo'.
        replace (length Q - length pre) with 0 in Eo' by lia. cbn [skipn] in Eo'.
        exact (IH _ _ Eo').
      * assert (Es : suf = skipn (length pre) Q ++ re_sub S Q rest).
        { apply (f_equal (skipn (length pre))) in Eo.
          rewrite skipn_app in Eo.
          replace (length pre - length Q) with 0 in Eo by lia.
          rewrite skipn_app, skipn_all, Nat.sub_diag in Eo. cbn [skipn app] in Eo.
          now symmetry. }
        rewrite Es. now apply Q_inside.
    + (* no match of [S] at the head *)
      rewrite re_sub_nomatch by assumption.
      assert (Htail : forall pre suf, y = pre ++ suf ->
                re_match R suf <> None -> re_match S suf <> None).
      { intros pre suf Er. apply (Hy (c :: pre)). now rewrite Er. }
      assert (IHy := IH (length y) ltac:(subst n; cbn; lia) y eq_refl Htail).
      intros pre suf Eo.
      destruct pre as [| p pre].
      * cbn [app] in Eo. subst suf.
        destruct (re_match R (c :: re_sub S Q y)) eqn:Hm; [exfalso | reflexivity].
        assert (Hgo : re_match R (c :: y) <> None).
        { destruct (scan_first S Q S_empty y)
            as [Hsame | (seg & m & rest & Ey & Hne & Hmatch & Hsub)].
          - rewrite Hsame in Hm. congruence.
          - rewrite Hsub in Hm. rewrite Ey.
            apply (transfer R (c :: seg) (Q ++ re_sub S Q rest) (m ++ rest)).
            + apply Q_carry. congruence.
            + cbn [app]. congruence. }
        apply (Hy [] (c :: y) eq_refl) in Hgo. congruence.
      * cbn [app] in Eo. inversion Eo; subst p. exact (IHy _ _ H1).
Qed.

End Untouched.

(** ** The bearer rule *)

Lemma letter_alnum (a c : ascii) :
  is_lower a = true -> Ascii.eqb (tolower c) (tolower a) = true -> is_alnum c = true.
Proof.
  intros Ha H. apply letter_cases in H as [-> | ->]; [| | assumption]; unfold is_alnum.
  - now rewrite Ha, orb_true_r.
  - replace (is_upper (chr (ord a - 32))) with true; [reflexivity |].
    unfold is_lower, is_upper, in_range in *. apply andb_prop in Ha as [H1 H2].
    apply Nat.leb_le in H1, H2. unfold chr, ord in *.
    rewrite nat_ascii_embedding by lia.
    symmetry. apply andb_true_intro. split; apply Nat.leb_le; lia.
Qed.

Lemma first_char_next a r z : re_match (ichar a :: r) z <> None ->
  exists c y, z = c :: y /\ Ascii.eqb (tolower c) (tolower a) = true
              /\ re_match r y <> None.
Proof.
  intros H. destruct (first_char a r z H) as (c & y & -> & Hc).
  exists c, y. repeat split; auto. unfold ichar in H. now rewrite step_one in H.
Qed.

(** A text matched by a pattern that starts with a word of lower-case
    letters starts with as many letters. *)
Lemma word_prefix : forall (l : list ascii) r z,
  forallb is_lower l = true -> re_match (map ichar l ++ r) z <> None ->
  exists K y, z = K ++ y /\ length K = length l /\ forallb is_alnum K = true.
Proof.
  induction l as [| a l IH]; intros r z Hl H.
  - exists [], z. auto.
  - cbn [forallb] in Hl. apply andb_prop in Hl as [Ha Hl].
    cbn [map app] in H. apply first_char_next in H as (c & y & -> & Hc & H).
    destruct (IH r y Hl H) as (K & y' & -> & Hlen & HK).
    exists (c :: K), y'. cbn [app length forallb].
    rewrite (letter_alnum a c Ha Hc), HK, Hlen. auto.
Qed.

Lemma tail_accepts p l K y :
  forallb p K = true -> l <= length K -> re_match [Rep p l None] (K ++ y) <> None.
Proof.
  intros HK Hl. apply re_match_complete. cbn [shape cls lo hi within].
  exists K, []. rewrite app_nil_r. auto.
Qed.

Lemma alnum_bearer K : forallb is_alnum K = true -> forallb bearer_value_class K = true.
Proof.
  induction K as [| c K IH]; [reflexivity |]. cbn [forallb]. intros H.
  apply andb_prop in H as [Hc HK]. unfold bearer_value_class at 1.
  now rewrite Hc, IH.
Qed.

Ltac tail HK Hlen :=
  apply tail_accepts; [exact HK | rewrite Hlen; lia].

Ltac norm_sub :=
  repeat first [ rewrite Nat.sub_succ in * | rewrite Nat.sub_0_r in *
               | rewrite Nat.sub_0_l in * ].

(* One node of the bearer rule, after [j] repetitions: up to a bound on [j]
   the mask is too short for it, and from there on the letters that start
   the other text are enough. *)
Ltac settle fuel j H HK Hlen :=
  first [ reject H
        | tail HK Hlen
        | lazymatch fuel with
          | S ?f => destruct j as [| j]; norm_sub;
                    [ first [reject H | tail HK Hlen] | settle f j H HK Hlen ]
          end ].

(* [carries] for the bearer rule and a mask, when the text on the other
   side starts with the letters of the word [l]. *)
Ltac carry_long l Hm :=
  let K := fresh "K" in let y := fresh "y" in
  let Hlen := fresh "Hlen" in let HK := fresh "HK" in
  let Ez := fresh "Ez" in
  apply (word_prefix l) in Hm as (K & y & Ez & Hlen & HK); [| reflexivity];
  apply alnum_bearer in HK; cbn in Hlen;
  explode_re; cbn [carries]; rewrite Ez;
  repeat split; intros j H;
  unfold residual in *; cbn [cls lo hi option_map] in *;
  settle 17 j H HK Hlen.

Lemma bearer_not_in_own_mask i x : i < length (lit "authorization: Bearer ***") ->
  re_match bearer_re (skipn i (lit "authorization: Bearer ***") ++ x) = None.
Proof. intros Hi. inside i Hi. Qed.

Lemma bearer_not_in_password_mask i x : i < length (lit "password=***") ->
  re_match bearer_re (skipn i (lit "password=***") ++ x) = None.
Proof. intros Hi. inside i Hi. Qed.

Lemma bearer_not_in_secret_mask i x : i < length (lit "secret=***") ->
  re_match bearer_re (skipn i (lit "secret=***") ++ x) = None.
Proof. intros Hi. inside i Hi. Qed.

Lemma bearer_carry x z' : re_match bearer_re z' <> None ->
  carries bearer_re (lit "authorization: Bearer ***" ++ x) z'.
Proof.
  intros Hm.
  change bearer_re with (map ichar (lit "authorization")
     ++ (ichar ":" :: [star isspace] ++ iword "Bearer"
         ++ [plus isspace] ++ [at_least 16 bearer_value_class])) in Hm.
  carry_long (lit "authorization") Hm.
Qed.

Lemma bearer_carry_password x z' : re_match password_re z' <> None ->
  carries bearer_re (lit "password=***" ++ x) z'.
Proof.
  intros Hm.
  change password_re with (map ichar (lit "password")
     ++ [star isspace; ichar "="; star isspace; plus not_space_nl]) in Hm.
  carry_long (lit "password") Hm.
Qed.

Lemma bearer_carry_secret x z' : re_match secret_re z' <> None ->
  carries bearer_re (lit "secret=***" ++ x) z'.
Proof.
  intros Hm.
  change secret_re with (map ichar (lit "secret")
     ++ [star isspace; ichar "="; star isspace; plus not_space_nl]) in Hm.
  carry_long (lit "secret") Hm.
Qed.

(** Once the bearer rule was applied, it matches nowhere. *)
Lemma bearer_no_match t :
  no_match bearer_re (re_sub bearer_re (lit "authorization: Bearer ***") t).
Proof.
  apply re_sub_no_match.
  - reflexivity.
  - reflexivity.
  - exact bearer_not_in_own_mask.
  - exact bearer_carry.
  - auto.
Qed.

(** Neither do the two rules after it give it anything to match. *)
Lemma bearer_no_match_after_password y :
  no_match bearer_re y ->
  no_match bearer_re (re_sub password_re (lit "password=***") y).
Proof.
  intros Hy. apply re_sub_no_match.
  - reflexivity.
  - reflexivity.
  - exact bearer_not_in_password_mask.
  - exact bearer_carry_password.
  - intros pre suf E H. now rewrite (Hy pre suf E) in H.
Qed.

Lemma bearer_no_match_after_secret y :
  no_match bearer_re y ->
  no_match bearer_re (re_sub secret_re (lit "secret=***") y).
Proof.
  intros Hy. apply re_sub_no_match.
  - reflexivity.
  - reflexivity.
  - exact bearer_not_in_secret_mask.
  - exact bearer_carry_secret.
  - intros pre suf E H. now rewrite (Hy pre suf E) in H.
Qed.

(** ** One pass and two passes of [redact_secrets] *)

Lemma redact_secrets_rules text :
  redact_secrets text
  = re_sub secret_re (lit "secret=***")
      (re_sub password_re (lit "password=***")
         (re_sub bearer_re (lit "authorization: Bearer ***")
            (re_sub api_key_re (lit "api_key=***")
               (re_sub aws_re (lit "aws_secret_access_key=***") text)))).
Proof. reflexivity. Qed.

(** C3 as stated fails: the mask of the password rule matches the password
    rule, so the redacted text of [password=x] contains a match. *)
Lemma redacted_text_matches_password_rule_counterexample :
  In (password_re, lit "password=***") SECRET_PATTERNS
  /\ redact_secrets (lit "password=x") = lit "password=***"
  /\ re_search password_re (redact_secrets (lit "password=x")) = true.
Proof.
  split; [| split].
  - right. right. right. left. reflexivity.
  - vm_compute. reflexivity.
  - vm_compute. reflexivity.
Qed.

(** A match of the api-key rule that is no mask can stay as well: masking
    the second key makes the first value long enough. *)
Lemma redacted_text_matches_api_key_rule :
  redact_secrets (lit "api_key=AAAAAAAAAapikey=BBBBBBBBBBBBBBBB")
  = lit "api_key=AAAAAAAAAapi_key=***"
  /\ re_match api_key_re (lit "api_key=AAAAAAAAAapi_key=***") = Some (lit "=***").
Proof. split; vm_compute; reflexivity. Qed.

(** So can a match of the aws rule: the password rule drops the blank that
    kept the value too short. *)
Lemma redacted_text_matches_aws_rule :
  redact_secrets (lit "aws_secret_access_key=AAAAAAAAAAApassword =x")
  = lit "aws_secret_access_key=AAAAAAAAAAApassword=***"
  /\ re_match aws_re (lit "aws_secret_access_key=AAAAAAAAAAApassword=***")
     = Some (lit "***").
Proof. split; vm_compute; reflexivity. Qed.

(** C3, amended.  After one pass the bearer rule matches nowhere in the
    output, and wherever the password rule or the generic secret rule
    matches, what it matches is the mask of that rule, [password=***] or
    [secret=***], and nothing more. *)
Theorem redacted_text_matches_only_masks (text pre suf rest : str) :
  redact_secrets text = pre ++ suf ->
  re_match bearer_re suf = None
  /\ (re_match password_re suf = Some rest -> suf = lit "password=***" ++ rest)
  /\ (re_match secret_re suf = Some rest -> suf = lit "secret=***" ++ rest).
Proof.
  rewrite redact_secrets_rules. intros E. split; [| split].
  - eapply bearer_no_match_after_secret; [| eassumption].
    apply bearer_no_match_after_password, bearer_no_match.
  - intros Hm.
    eapply password_only_self_after_secret; [apply password_only_self | |]; eassumption.
  - intros Hm. eapply secret_only_self; eassumption.
Qed.

Lemma redacted_text_matches_only_masks_witness :
  lit "password=*** secret=***" = lit "password=***" ++ lit " secret=***".
Proof.
  refine (proj1 (proj2 (redacted_text_matches_only_masks
            (lit "password = hunter2 secret=abc") [] (lit "password=*** secret=***")
            (lit " secret=***") _)) _).
  - vm_compute. reflexivity.
  - vm_compute. reflexivity.
Defined.

(** C7 as stated fails: on the output of the first pass the api-key rule
    matches again, with a longer value, and the second pass masks it. *)
Lemma redact_secrets_twice_counterexample :
  redact_secrets (lit "api_key=AAAAAAAAAapikey=BBBBBBBBBBBBBBBB")
  = lit "api_key=AAAAAAAAAapi_key=***"
  /\ redact_secrets (redact_secrets (lit "api_key=AAAAAAAAAapikey=BBBBBBBBBBBBBBBB"))
     = lit "api_key=***=***".
Proof. split; vm_compute; reflexivity. Qed.

(** C7, amended.  When the redacted text holds no match of the aws rule
    and of the api-key rule, a second pass changes nothing: the bearer rule
    finds nothing, and the password rule and the generic secret rule find
    their own masks and put them back. *)
Theorem redact_secrets_idempotent_without_key_matches (text : str) :
  re_search aws_re (redact_secrets text) = false ->
  re_search api_key_re (redact_secrets text) = false ->
  redact_secrets (redact_secrets text) = redact_secrets text.
Proof.
  intros Haws Hapi.
  assert (Hbearer : re_search bearer_re (redact_secrets text) = false).
  { apply no_match_search. rewrite redact_secrets_rules.
    apply bearer_no_match_after_secret, bearer_no_match_after_password,
      bearer_no_match. }
  rewrite (redact_secrets_rules (redact_secrets text)).
  rewrite (re_sub_unchanged _ _ _ Haws), (re_sub_unchanged _ _ _ Hapi),
    (re_sub_unchanged _ _ _ Hbearer).
  assert (Hp : only_self password_re (lit "password=***") (redact_secrets text)).
  { rewrite redact_secrets_rules.
    apply password_only_self_after_secret, password_only_self. }
  assert (Hs : only_self secret_re (lit "secret=***") (redact_secrets text)).
  { rewrite redact_secrets_rules. apply secret_only_self. }
  rewrite (only_self_fixed password_re (lit "password=***") eq_refl
             ltac:(discriminate) _ Hp).
  apply (only_self_fixed secret_re (lit "secret=***") eq_refl ltac:(discriminate) _ Hs).
Qed.

Lemma redact_secrets_idempotent_without_key_matches_witness :
  redact_secrets (redact_secrets (lit "+password = hunter2 Secret=abc"))
  = redact_secrets (lit "+password = hunter2 Secret=abc").
Proof.
  apply (redact_secrets_idempotent_without_key_matches
           (lit "+password = hunter2 Secret=abc")); vm_compute; reflexivity.
Defined.

(** ** Stripping

    [strip_by p] removes the characters of the class [p] at both ends and
    nothing else. *)

Section Strip.

Variable p : ascii -> bool.

Lemma lstrip_by_all s : forallb p s = true -> lstrip_by p s = [].
Proof.
  induction s as [| c s IH]; [reflexivity |]. cbn [forallb lstrip_by].
  intros H. apply andb_prop in H as [Hc Hs]. now rewrite Hc, IH.
Qed.

Lemma lstrip_by_app a m : forallb p a = true -> lstrip_by p (a ++ m) = lstrip_by p m.
Proof.
  induction a as [| c a IH]; [reflexivity |]. cbn [forallb app lstrip_by].
  intros H. apply andb_prop in H as [Hc Ha]. now rewrite Hc, IH.
Qed.

Lemma lstrip_by_keep c m : p c = false -> lstrip_by p (c :: m) = c :: m.
Proof. intros H. cbn [lstrip_by]. now rewrite H. Qed.

(** What [lstrip_by] leaves is a suffix, and it does not start in [p]. *)
Lemma lstrip_by_spec s :
  exists a, s = a ++ lstrip_by p s /\ forallb p a = true
            /\ stops (fun c => negb (p c)) (lstrip_by p s) = true.
Proof.
  induction s as [| c s (a & E & Ha & Hs)].
  - now exists [].
  - cbn [lstrip_by]. destruct (p c) eqn:Hc.
    + exists (c :: a). cbn [app forallb]. rewrite Hc, Ha. cbn [andb].
      repeat split; [now f_equal | assumption].
    + exists []. cbn [app forallb stops]. now rewrite Hc.
Qed.

Lemma forallb_rev' s : forallb p (rev s) = forallb p s.
Proof.
  induction s as [| c s IH]; [reflexivity |]. cbn [rev forallb].
  rewrite forallb_app, IH. cbn [forallb]. now rewrite andb_true_r, andb_comm.
Qed.

Lemma rstrip_by_app m b : forallb p b = true -> rstrip_by p (m ++ b) = rstrip_by p m.
Proof.
  intros H. unfold rstrip_by. rewrite rev_app_distr, lstrip_by_app; [reflexivity |].
  now rewrite forallb_rev'.
Qed.

Lemma rstrip_by_keep m c : p c = false -> rstrip_by p (m ++ [c]) = m ++ [c].
Proof.
  intros H. unfold rstrip_by. rewrite rev_app_distr. cbn [rev app].
  rewrite lstrip_by_keep by assumption. cbn [rev]. now rewrite rev_involutive.
Qed.

Lemma rstrip_by_all s : forallb p s = true -> rstrip_by p s = [].
Proof.
  intros H. unfold rstrip_by. rewrite lstrip_by_all; [reflexivity |].
  now rewrite forallb_rev'.
Qed.

(** What [rstrip_by] leaves is a prefix, and it does not end in [p]. *)
Lemma rstrip_by_spec s :
  exists b, s = rstrip_by p s ++ b /\ forallb p b = true
            /\ forall m c, rstrip_by p s = m ++ [c] -> p c = false.
Proof.
  unfold rstrip_by. destruct (lstrip_by_spec (rev s)) as (a & E & Ha & Hs).
  exists (rev a). repeat split.
  - rewrite <- rev_app_distr, <- E. now rewrite rev_involutive.
  - now rewrite forallb_rev'.
  - intros m c Em. apply (f_equal (@rev ascii)) in Em.
    rewrite rev_involutive, rev_app_distr in Em. cbn [rev app] in Em.
    rewrite Em in Hs. cbn [stops] in Hs. now apply negb_true_iff in Hs.
Qed.

Lemma strip_by_all s : forallb p s = true -> strip_by p s = [].
Proof. intros H. unfold strip_by. now rewrite lstrip_by_all. Qed.

(** The ends of a stripped text are not in [p]. *)
Lemma strip_by_ends s :
  (forall c m, strip_by p s = c :: m -> p c = false)
  /\ (forall m c, strip_by p s = m ++ [c] -> p c = false).
Proof.
  split.
  - intros c m E. unfold strip_by in E.
    destruct (lstrip_by_spec s) as (a & _ & _ & Hs).
    destruct (rstrip_by_spec (lstrip_by p s)) as (b & Eb & _ & _).
    rewrite E in Eb. rewrite Eb in Hs. cbn [app stops] in Hs.
    now apply negb_true_iff in Hs.
  - intros m c E. unfold strip_by in E.
    destruct (rstrip_by_spec (lstrip_by p s)) as (b & _ & _ & H). eapply H, E.
Qed.

Lemma strip_by_fixed s :
  (forall c m, s = c :: m -> p c = false) ->
  (forall m c, s = m ++ [c] -> p c = false) ->
  strip_by p s = s.
Proof.
  intros Hh Hl. unfold strip_by.
  destruct s as [| c m]; [reflexivity |].
  rewrite lstrip_by_keep by (eapply Hh; reflexivity).
  destruct (exists_last (l := c :: m) ltac:(discriminate)) as (m' & c' & E).
  rewrite E. apply rstrip_by_keep. eapply Hl, E.
Qed.

(** Padding on both sides goes, the text between stays. *)
Lemma strip_by_padded a b body :
  forallb p a = true -> forallb p b = true ->
  (forall c m, body = c :: m -> p c = false) ->
  (forall m c, body = m ++ [c] -> p c = false) ->
  strip_by p (a ++ body ++ b) = body.
Proof.
  intros Ha Hb Hh Hl. unfold strip_by. rewrite lstrip_by_app by assumption.
  destruct body as [| c m].
  - cbn [app]. rewrite lstrip_by_all by assumption. reflexivity.
  - cbn [app]. rewrite lstrip_by_keep by (eapply Hh; reflexivity).
    change (c :: m ++ b) with ((c :: m) ++ b). rewrite rstrip_by_app by assumption.
    destruct (exists_last (l := c :: m) ltac:(discriminate)) as (m' & c' & E).
    rewrite E. apply rstrip_by_keep. eapply Hl, E.
Qed.

Lemma strip_by_idempotent s : strip_by p (strip_by p s) = strip_by p s.
Proof. destruct (strip_by_ends s) as [Hh Hl]. now apply strip_by_fixed. Qed.

End Strip.

(** ** Texts that stay as they are, or stay non-empty *)

Lemma startswith_iff (s p : str) : startswith s p = true <-> exists rest, s = p ++ rest.
Proof.
  split.
  - revert s. induction p as [| a p IH]; intros s H.
    + now exists s.
    + destruct s as [| b s]; [discriminate |]. cbn [startswith] in H.
      apply andb_prop in H as [Hab H]. apply Ascii.eqb_eq in Hab. subst b.
      destruct (IH _ H) as (rest & ->). now exists rest.
  - intros (rest & ->). apply startswith_app.
Qed.

Lemma re_sub_nil_inv r repl s : repl <> [] -> re_sub r repl s = [] -> s = [].
Proof.
  intros Hr. destruct s as [| c s]; [reflexivity |].
  unfold re_sub. cbn [sub_from].
  destruct (re_match r (c :: s)) as [rest |]; [| discriminate].
  destruct (length (c :: s) - length rest); intros H;
    apply app_eq_nil in H as [H _]; congruence.
Qed.

Lemma redact_secrets_nil_inv s : redact_secrets s = [] -> s = [].
Proof.
  rewrite redact_secrets_rules. intros H.
  repeat (apply re_sub_nil_inv in H; [| discriminate]). exact H.
Qed.

Lemma truncate_nil_inv limit diff : truncate limit diff = [] -> diff = [].
Proof.
  unfold truncate. destruct (limit <? _)%Z; [| auto].
  intros H. apply app_eq_nil in H as [_ H]. discriminate.
Qed.

(** ** Fences and lines *)

Lemma app_head (a b : str) c m :
  a ++ b = c :: m -> (exists a', a = c :: a') \/ (a = [] /\ b = c :: m).
Proof. destruct a as [| x a]; cbn [app]; intros H; [auto | left; inversion H; eauto]. Qed.

Lemma app_last (a b : str) m c :
  a ++ b = m ++ [c] -> (exists b', b = b' ++ [c]) \/ (b = [] /\ a = m ++ [c]).
Proof.
  destruct b as [| x b]; intros H.
  - right. now rewrite app_nil_r in H.
  - left. destruct (exists_last (l := x :: b) ltac:(discriminate)) as (b' & c' & E).
    rewrite E, app_assoc in H. apply app_inj_tail in H as [_ ->]. eauto.
Qed.

Lemma backtick_not_space c : Ascii.eqb c (chr 96) = true -> isspace c = false.
Proof. intros H. apply Ascii.eqb_eq in H. now subst. Qed.

(** The ends of a fenced text are no whitespace. *)
Lemma fenced_ends (ticks1 body ticks2 : str) :
  forallb (fun c => Ascii.eqb c (chr 96)) ticks1 = true ->
  forallb (fun c => Ascii.eqb c (chr 96)) ticks2 = true ->
  (forall c m, body = c :: m -> isspace c = false) ->
  (forall m c, body = m ++ [c] -> isspace c = false) ->
  (forall c m, ticks1 ++ body ++ ticks2 = c :: m -> isspace c = false)
  /\ (forall m c, ticks1 ++ body ++ ticks2 = m ++ [c] -> isspace c = false).
Proof.
  intros H1 H2 Hh Hl. split.
  - intros c m E. apply app_head in E as [(a' & ->) | [_ E]].
    + cbn [forallb] in H1. apply andb_prop in H1 as [H1 _].
      now apply backtick_not_space.
    + apply app_head in E as [(a' & ->) | [_ ->]].
      * eapply Hh; reflexivity.
      * cbn [forallb] in H2. apply andb_prop in H2 as [H2 _].
        now apply backtick_not_space.
  - intros m c E. rewrite app_assoc in E.
    apply app_last in E as [(b' & ->) | [_ E]].
    + rewrite forallb_app in H2. apply andb_prop in H2 as [_ H2].
      cbn [forallb] in H2. apply andb_prop in H2 as [H2 _].
      now apply backtick_not_space.
    + apply app_last in E as [(b' & ->) | [_ ->]].
      * eapply Hl; reflexivity.
      * rewrite forallb_app in H1. apply andb_prop in H1 as [_ H1].
        cbn [forallb] in H1. apply andb_prop in H1 as [H1 _].
        now apply backtick_not_space.
Qed.

(** *** Lines *)

Lemma linebreak_isspace c : is_linebreak c = true -> isspace c = true.
Proof.
  unfold is_linebreak, isspace. cbv zeta.
  repeat match goal with
  | |- context [?a <=? ?b] => destruct (Nat.leb_spec a b)
  | |- context [?a =? ?b] => destruct (Nat.eqb_spec a b)
  end; cbn; try reflexivity; try discriminate; lia.
Qed.

Lemma splitlines_aux_line : forall n cur rest,
  forallb (fun c => negb (isspace c)) n = true ->
  splitlines_aux false cur (n ++ rest) = splitlines_aux false (rev n ++ cur) rest.
Proof.
  induction n as [| c n IH]; intros cur rest H; [reflexivity |].
  cbn [forallb] in H. apply andb_prop in H as [Hc Hn].
  cbn [app splitlines_aux]. rewrite andb_false_r.
  destruct (is_linebreak c) eqn:L.
  - apply linebreak_isspace in L. rewrite L in Hc. discriminate.
  - rewrite IH by assumption. cbn [rev]. now rewrite <- app_assoc.
Qed.

Lemma splitlines_join : forall names,
  forallb plain_name names = true -> splitlines (join [NL] names) = names.
Proof.
  unfold splitlines. induction names as [| x names IH]; intros H; [reflexivity |].
  cbn [forallb] in H. apply andb_prop in H as [Hx Hn].
  unfold plain_name in Hx. apply andb_prop in Hx as [Hne Hx].
  destruct names as [| y names].
  - cbn [join]. rewrite <- (app_nil_r x) at 1.
    rewrite splitlines_aux_line by assumption. rewrite app_nil_r. cbn [splitlines_aux].
    destruct x as [| c x]; [discriminate |].
    destruct (rev (c :: x)) eqn:E.
    + apply (f_equal (@length ascii)) in E. rewrite length_rev in E. discriminate.
    + now rewrite <- E, rev_involutive.
  - change (join [NL] (x :: y :: names)) with (x ++ [NL] ++ join [NL] (y :: names)).
    rewrite splitlines_aux_line by assumption. rewrite app_nil_r.
    cbn [app splitlines_aux]. rewrite andb_false_r.
    change (is_linebreak NL) with true. cbv iota.
    rewrite rev_involutive. change (ord NL =? 13) with false.
    now rewrite IH.
Qed.

Lemma listing_join : forall names, names <> [] ->
  concat (map (fun n => n ++ [NL]) names) = join [NL] names ++ [NL].
Proof.
  induction names as [| x names IH]; intros H; [congruence |].
  destruct names as [| y names].
  - cbn. now rewrite app_nil_r.
  - specialize (IH ltac:(discriminate)). cbn [map concat] in *. rewrite IH.
    change (join [NL] (x :: y :: names)) with (x ++ [NL] ++ join [NL] (y :: names)).
    now rewrite <- !app_assoc.
Qed.

Lemma join_ends : forall names, forallb plain_name names = true ->
  (forall c m, join [NL] names = c :: m -> isspace c = false)
  /\ (forall m c, join [NL] names = m ++ [c] -> isspace c = false).
Proof.
  induction names as [| x names IH]; intros H.
  - split; intros; [discriminate | now destruct m].
  - cbn [forallb] in H. apply andb_prop in H as [Hx Hn].
    unfold plain_name in Hx. apply andb_prop in Hx as [Hne Hx].
    destruct (IH Hn) as [Ih Il]. destruct names as [| y names].
    + cbn [join]. split.
      * intros c m ->. cbn [forallb] in Hx. apply andb_prop in Hx as [Hx _].
        now apply negb_true_iff in Hx.
      * intros m c ->. rewrite forallb_app in Hx. apply andb_prop in Hx as [_ Hx].
        cbn [forallb] in Hx. apply andb_prop in Hx as [Hx _].
        now apply negb_true_iff in Hx.
    + change (join [NL] (x :: y :: names)) with (x ++ [NL] ++ join [NL] (y :: names)).
      split.
      * intros c m E. destruct x as [| c0 x]; [discriminate |].
        cbn [app] in E. inversion E; subst c0.
        cbn [forallb] in Hx. apply andb_prop in Hx as [Hx _].
        now apply negb_true_iff in Hx.
      * intros m c E. rewrite app_assoc in E.
        apply app_last in E as [(b' & E) | [E _]].
        -- eapply Il, E.
        -- cbn [forallb] in Hn. apply andb_prop in Hn as [Hy _].
           unfold plain_name in Hy. apply andb_prop in Hy as [Hy _].
           destruct y; [discriminate |]. destruct names; discriminate.
Qed.

(** ** A run of the matcher that takes all it can *)

Lemma greedy_run p k : forall a l x r,
  forallb p a = true -> stops (fun c => negb (p c)) x = true ->
  l <= length a -> k x = Some r ->
  greedy p l None k (a ++ x) = Some r.
Proof.
  induction a as [| c a IH]; intros l x r Ha Hx Hl Hk.
  - cbn [length] in Hl. assert (l = 0) as -> by lia.
    cbn [app]. now rewrite greedy_stops.
  - cbn [forallb] in Ha. apply andb_prop in Ha as [Hc Ha].
    cbn [app greedy more less]. rewrite Hc. cbn [andb].
    rewrite (IH (pred l) x r Ha Hx); [reflexivity | cbn [length] in Hl; lia | exact Hk].
Qed.

Lemma iword_run : forall (key K : str) r s,
  map tolower K = map tolower key ->
  re_match (map ichar key ++ r) (K ++ s) = re_match r s.
Proof.
  induction key as [| x key IH]; intros K r s H.
  - destruct K; [reflexivity | discriminate].
  - destruct K as [| c K]; [discriminate |]. cbn [map] in H. inversion H.
    cbn [map app]. unfold ichar at 1. rewrite step_one.
    + now apply IH.
    + apply Ascii.eqb_eq. assumption.
Qed.

Lemma not_space_is_value c : isspace c = false -> not_space_nl c = true.
Proof.
  intros H. unfold not_space_nl. apply negb_true_iff, orb_false_iff. split.
  - destruct (Ascii.eqb_spec c SP); [subst; discriminate | reflexivity].
  - destruct (Ascii.eqb_spec c NL); [subst; discriminate | reflexivity].
Qed.

(** ** The rules of the monitors *)

Section Logic.

Context {World float S : Type}.
Variable host : Host World float.
Variable d : @monitor float S.

Local Abbreviation Run := (M World float).

Lemma observe_app (s : S) (a b : list (event float)) :
  observe d s (a ++ b)
  = match observe d s a with Some s' => observe d s' b | None => None end.
Proof.
  revert s. induction a as [| e a IH]; intros s; cbn [app observe]; [reflexivity |].
  destruct (d s e); [apply IH | reflexivity].
Qed.

Lemma respects_ret {A} (s : S) (a : A) (post : exn + A -> S -> Prop) :
  post (inr a) s -> respects d s (ret a : Run A) post.
Proof.
  intros H st r st' E. unfold ret in E. inversion E; subst.
  exists [], s. now rewrite app_nil_r.
Qed.

Lemma respects_raise {A} (s : S) (e : exn) (post : exn + A -> S -> Prop) :
  post (inl e) s -> respects d s (raise e : Run A) post.
Proof.
  intros H st r st' E. unfold raise in E. inversion E; subst.
  exists [], s. now rewrite app_nil_r.
Qed.

Lemma respects_bind {A B} (s : S) (m : Run A) (k : A -> Run B)
    (mid : exn + A -> S -> Prop) (post : exn + B -> S -> Prop) :
  respects d s m mid ->
  (forall a s1, mid (inr a) s1 -> respects d s1 (k a) post) ->
  (forall e s1, mid (inl e) s1 -> post (inl e) s1) ->
  respects d s (bind m k) post.
Proof.
  intros Hm Hk He st r st' E. unfold bind in E.
  destruct (m st) as [[e | a] st1] eqn:Em.
  - inversion E; subst. destruct (Hm _ _ _ Em) as (evs & s1 & T & O & P).
    exists evs, s1. auto.
  - destruct (Hm _ _ _ Em) as (evs & s1 & T & O & P).
    destruct (Hk a s1 P _ _ _ E) as (evs2 & s2 & T2 & O2 & P2).
    exists (evs ++ evs2), s2. rewrite T2, T, app_assoc, observe_app, O. auto.
Qed.

Lemma respects_try {A} (s : S) (m h : Run A)
    (mid post : exn + A -> S -> Prop) :
  respects d s m mid ->
  (forall a s1, mid (inr a) s1 -> post (inr a) s1) ->
  (forall e s1, mid (inl e) s1 -> respects d s1 h post) ->
  respects d s (try_except m h) post.
Proof.
  intros Hm Ha Hh st r st' E. unfold try_except in E.
  destruct (m st) as [[e | a] st1] eqn:Em.
  - destruct (Hm _ _ _ Em) as (evs & s1 & T & O & P).
    destruct (Hh e s1 P _ _ _ E) as (evs2 & s2 & T2 & O2 & P2).
    exists (evs ++ evs2), s2. rewrite T2, T, app_assoc, observe_app, O. auto.
  - inversion E; subst. destruct (Hm _ _ _ Em) as (evs & s1 & T & O & P).
    exists evs, s1. auto.
Qed.

Lemma respects_weaken {A} (s : S) (m : Run A) (post post' : exn + A -> S -> Prop) :
  respects d s m post -> (forall r s', post r s' -> post' r s') ->
  respects d s m post'.
Proof.
  intros Hm Hw st r st' E. destruct (Hm _ _ _ E) as (evs & s1 & T & O & P).
  exists evs, s1. auto.
Qed.

Lemma respects_run_git (s s1 : S) (args : list str) (cwd : str) :
  d s (EvRun (lit "git" :: args) cwd) = Some s1 ->
  respects d s (run_git host args cwd) (fun _ s' => s' = s1).
Proof.
  intros Hd st r st' E. apply run_git_trace in E.
  exists [EvRun (lit "git" :: args) cwd], s1. cbn [observe]. rewrite Hd. auto.
Qed.

Lemma respects_getenv (s s1 : S) (name : str) :
  d s (EvGetenv name) = Some s1 ->
  respects d s (getenv host name) (fun _ s' => s' = s1).
Proof.
  intros Hd st r st' E. unfold getenv in E. inversion E; subst.
  exists [EvGetenv name], s1. cbn [observe trace]. rewrite Hd. auto.
Qed.

Lemma respects_chat (s s1 : S) (req : ChatRequest float) :
  d s (EvChat req) = Some s1 ->
  respects d s (chat host req) (fun _ s' => s' = s1).
Proof.
  intros Hd st r st' E. unfold chat in E.
  destruct (chat_completions_create host req (world st)) as [res w].
  inversion E; subst.
  exists [EvChat req], s1. cbn [observe trace]. rewrite Hd. auto.
Qed.

Lemma respects_print (s s1 : S) (text : str) :
  d s (EvPrint text) = Some s1 ->
  respects d s (print text : Run unit) (fun _ s' => s' = s1).
Proof.
  intros Hd st r st' E. unfold print, emit in E. inversion E; subst.
  exists [EvPrint text], s1. cbn [observe trace]. rewrite Hd. auto.
Qed.

Lemma respects_resolve (s : S) (path : str) :
  respects d s (resolve host path) (fun _ s' => s' = s).
Proof.
  intros st r st' E. unfold resolve in E. inversion E; subst.
  exists [], s. now rewrite app_nil_r.
Qed.

Lemma respects_check_allowed cfg (s : S) (path : str) :
  respects d s (check_allowed cfg path : Run unit) (fun _ s' => s' = s).
Proof.
  intros st r st' E. apply check_allowed_state in E. subst.
  exists [], s. now rewrite app_nil_r.
Qed.

End Logic.

Lemma observe_only {float} (allowed : event float -> bool) evs :
  observe (only allowed) tt evs <> None <-> forallb allowed evs = true.
Proof.
  induction evs as [| e evs IH]; cbn [observe forallb].
  - split; [reflexivity | discriminate].
  - unfold only at 1. destruct (allowed e); cbn [andb].
    + exact IH.
    + split; [congruence | discriminate].
Qed.

Section Pieces.

Context {World float S : Type}.
Variable host : Host World float.
Variable cfg : Config float.
Variable d : @monitor float S.
Variable s : S.

Local Abbreviation Run := (M World float).

(* One step of a run that leaves the monitor where it is. *)
Ltac quiet_step H :=
  eapply respects_bind;
  [ apply respects_run_git; apply H
  | intros ? ? ->
  | intros ? ? ->; reflexivity ].

Lemma respects_ensure_repo (path : str) :
  (forall cwd, d s (EvRun [lit "git"; lit "rev-parse"; lit "--show-toplevel"] cwd) = Some s) ->
  respects d s (ensure_repo host cfg path) (fun _ s' => s' = s).
Proof.
  intros H. unfold ensure_repo.
  eapply respects_bind; [apply respects_resolve | intros p ? -> | intros ? ? ->; reflexivity].
  eapply respects_bind; [apply respects_check_allowed | intros ? ? -> | intros ? ? ->; reflexivity].
  quiet_step H. now apply respects_ret.
Qed.

Lemma respects_resolve_branch (branch : option str) (repo : str) :
  (forall cwd, d s (EvRun [lit "git"; lit "rev-parse"; lit "--abbrev-ref"; lit "HEAD"] cwd) = Some s) ->
  respects d s (resolve_branch host branch repo) (fun _ s' => s' = s).
Proof.
  intros H. unfold resolve_branch, get_current_branch.
  destruct branch as [[| c b] |]; try now apply respects_ret.
  all: apply respects_run_git, H.
Qed.

Lemma respects_generate (diff : str) (language : option str) (model : str) (temperature : float) :
  (forall name, d s (EvGetenv name) = Some s) ->
  (forall req, d s (EvChat req) = Some s) ->
  respects d s (openai_generate_commit_message host diff language model temperature)
    (fun _ s' => s' = s).
Proof.
  intros Hg Hc. unfold openai_generate_commit_message.
  eapply respects_bind;
    [apply respects_getenv, Hg | intros key ? -> | intros ? ? ->; reflexivity].
  destruct (negb (truthy_opt key)); [now apply respects_raise |].
  eapply respects_bind;
    [apply respects_chat, Hc | intros content ? -> | intros ? ? ->; reflexivity].
  now apply respects_ret.
Qed.

Lemma respects_resolve_message (repo message : str) (generate_if_empty staged : bool)
    (language model : option str) (temperature : option float) :
  (forall b cwd, d s (EvRun (lit "git" :: plain_diff_args b) cwd) = Some s) ->
  (forall name, d s (EvGetenv name) = Some s) ->
  (forall req, d s (EvChat req) = Some s) ->
  respects d s (resolve_message host cfg repo message generate_if_empty staged
                  language model temperature) (fun _ s' => s' = s).
Proof.
  intros Hd Hg Hc. unfold resolve_message.
  destruct (negb (truthy (strip message)) && generate_if_empty); [| now apply respects_ret].
  eapply respects_bind;
    [apply respects_run_git, Hd | intros diff ? -> | intros ? ? ->; reflexivity].
  destruct (negb (truthy diff)); [now apply respects_ret |].
  eapply respects_bind;
    [now apply respects_generate | intros g ? -> | intros ? ? ->; reflexivity].
  now apply respects_ret.
Qed.

Lemma respects_has_remote (repo remote : str) :
  (forall cwd, d s (EvRun [lit "git"; lit "remote"] cwd) = Some s) ->
  respects d s (has_remote host repo remote) (fun _ s' => s' = s).
Proof.
  intros H. unfold has_remote. quiet_step H. now apply respects_ret.
Qed.

Lemma respects_push_with_upstream (repo remote current_branch : str) :
  (forall argv cwd, git_sub "commit" (EvRun (float := float) argv cwd) = false ->
                    d s (EvRun argv cwd) = Some s) ->
  respects d s (push_with_upstream host repo remote current_branch)
    (fun _ s' => s' = s).
Proof.
  intros H. unfold push_with_upstream.
  eapply respects_try with (mid := fun _ s' => s' = s).
  - eapply respects_bind;
      [ apply respects_run_git, H; reflexivity
      | intros ? ? ->; apply respects_run_git, H; reflexivity
      | intros ? ? ->; reflexivity ].
  - intros ? ? ->. reflexivity.
  - intros ? ? ->. apply respects_run_git, H. reflexivity.
Qed.

End Pieces.
(** ** What the tools do on every run *)

Section Heads.

Context {World float : Type}.
Variable host : Host World float.
Variable cfg : Config float.

Lemma diff_args_head staged ctx filter :
  exists rest, diff_args staged ctx filter = lit "diff" :: rest.
Proof.
  unfold diff_args. destruct staged, filter as [[| c f] |]; cbn [firstn skipn app];
    eexists; reflexivity.
Qed.

Lemma commit_args_head msg signoff :
  exists rest, commit_args msg signoff = lit "commit" :: rest.
Proof. unfold commit_args. destruct signoff; eexists; reflexivity. Qed.

Lemma plain_diff_args_head b :
  exists rest, plain_diff_args b = lit "diff" :: rest.
Proof. destruct b; eexists; reflexivity. Qed.

Lemma respects_only {A} (allowed : event float -> bool) (m : M World float A) :
  respects (only allowed) tt m (fun _ _ => True) ->
  forall st r st', m st = (r, st') ->
  exists evs, trace st' = trace st ++ evs /\ forallb allowed evs = true.
Proof.
  intros H st r st' E. destruct (H _ _ _ E) as (evs & [] & T & O & _).
  exists evs. split; [assumption |]. apply observe_only. congruence.
Qed.

(** With a message at hand, or with generation turned off, the message is
    resolved without a call. *)
Lemma respects_given_message {S : Type} (d : monitor S) (s : S)
    (repo message : str) (generate_if_empty staged : bool)
    (language model : option str) (temperature : option float) :
  negb (truthy (strip message)) && generate_if_empty = false ->
  respects d s (resolve_message host cfg repo message generate_if_empty staged
                  language model temperature) (fun _ s' => s' = s).
Proof.
  intros H. unfold resolve_message. rewrite H. now apply respects_ret.
Qed.

Lemma has_remote_found (repo remote listing : str) (st st' : State World float) :
  run_git host [lit "remote"] repo st = (inr listing, st') ->
  has_remote host repo remote st = (inr (str_in remote (splitlines listing)), st').
Proof. intros H. unfold has_remote. now rewrite (bind_inr _ _ _ _ _ H). Qed.

(** No root is a prefix of the path. *)
Lemma no_root_is_a_prefix (path : str) (roots : list str) :
  existsb (fun root => startswith path root) roots = false
  <-> forall root rest, In root roots -> path <> root ++ rest.
Proof.
  split.
  - intros Ex root rest Hin Hp.
    assert (Hs : startswith path root = true) by (apply startswith_iff; eauto).
    assert (existsb (fun root => startswith path root) roots = true)
      by (apply existsb_exists; eauto).
    congruence.
  - intros H. destruct (existsb _ roots) eqn:Ex; [| reflexivity]. exfalso.
    apply existsb_exists in Ex as (root & Hin & Hs).
    apply startswith_iff in Hs as (rest & Hs). exact (H root rest Hin Hs).
Qed.

End Heads.

Ltac split_if :=
  match goal with
  | |- respects ?d ?s (if true then ?x else _) ?p => change (respects d s x p)
  | |- respects ?d ?s (if false then _ else ?y) ?p => change (respects d s y p)
  | |- respects _ _ (if ?b then _ else _) _ => destruct b
  | |- respects _ _ (match ?o with inl _ => _ | inr _ => _ end) _ => destruct o
  | |- respects _ _ (match ?o with Some _ => _ | None => _ end) _ =>
      destruct o as [[| ? ?] |]
  end.

(** The parts of a tool, each under a monitor that lets its calls pass. *)
Ltac component :=
  first [ apply respects_ensure_repo; intros; reflexivity
        | apply respects_resolve_branch; intros; reflexivity
        | apply respects_resolve_message;
          [ intros b ?; destruct (plain_diff_args_head b) as (? & ->); reflexivity
          | intros; reflexivity | intros; reflexivity ]
        | apply respects_has_remote; intros; reflexivity
        | apply respects_push_with_upstream;
          let Hc := fresh in
          intros [| ? [| ? ?]] ? Hc; cbn in Hc |- *; try rewrite Hc; reflexivity
        | apply respects_run_git; reflexivity
        | apply respects_print; reflexivity ].

Ltac stepper :=
  repeat first
    [ apply respects_ret; exact I
    | apply respects_raise; exact I
    | split_if
    | eapply respects_bind;
      [ component | intros ? ? -> | intros ? ? ->; exact I ] ].

Ltac name_commit :=
  match goal with
  | |- context [commit_args ?m ?sg] => destruct (commit_args_head m sg) as (? & ->)
  end.

Section Calls.

Context {World float : Type}.
Variable host : Host World float.
Variable cfg : Config float.

Local Abbreviation St := (State World float).

(** X1. Whatever the arguments and however the run ends, every call that
    [get_git_diff] makes is a [git rev-parse] or a [git diff]: it runs no
    other subprocess, reads no environment variable, sends no completion
    request and prints nothing. *)
Theorem get_git_diff_only_reads (path : str) (staged_only : bool) (context_lines : Z)
    (filter_path : option str) (max_chars : option Z) (st st' : St) r :
  get_git_diff host cfg path staged_only context_lines filter_path max_chars st = (r, st') ->
  exists evs, trace st' = trace st ++ evs
              /\ forallb (git_among ["rev-parse"; "diff"]%string) evs = true.
Proof.
  apply respects_only. unfold get_git_diff.
  destruct (diff_args_head staged_only context_lines filter_path) as (rest & ->).
  stepper.
Qed.

(** X2. Whatever the pattern and however the run ends, every call that
    [stage_all] makes is a [git rev-parse] or a [git add]. *)
Theorem stage_all_only_adds (path : str) (pattern : option str) (st st' : St) r :
  stage_all host cfg path pattern st = (r, st') ->
  exists evs, trace st' = trace st ++ evs
              /\ forallb (git_among ["rev-parse"; "add"]%string) evs = true.
Proof.
  apply respects_only. unfold stage_all.
  stepper.
Qed.

(** X3. However the run ends, [generate_commit_message] makes no call other
    than [git rev-parse], [git diff] and [print]: it never reads the
    environment and never sends a completion request. *)
Theorem generate_commit_message_only_reads_and_prints
    (path : str) (staged_only : bool) (language model : option str)
    (temperature : option float) (st st' : St) r :
  generate_commit_message host cfg path staged_only language model temperature st
    = (r, st') ->
  exists evs, trace st' = trace st ++ evs
    /\ forallb (fun e => git_among ["rev-parse"; "diff"]%string e || is_print e) evs
       = true.
Proof.
  apply respects_only. unfold generate_commit_message.
  destruct (plain_diff_args_head staged_only) as (rest & ->).
  stepper.
Qed.

(** X4. With [dry_run] set, no run of [commit_and_push] calls [git commit]
    or [git push], whatever the other arguments are and whatever git and the
    completion service answer. *)
Theorem commit_and_push_dry_run_only_reads
    (path message : str) (signoff : bool) (branch : option str) (remote : str)
    (push allow_main_push generate_if_empty staged_only_for_gen : bool)
    (language model : option str) (temperature : option float) (st st' : St) r :
  commit_and_push host cfg path message signoff branch remote push allow_main_push
    generate_if_empty staged_only_for_gen true language model temperature st = (r, st') ->
  exists evs, trace st' = trace st ++ evs /\ forallb read_only evs = true.
Proof.
  apply respects_only. unfold commit_and_push. stepper.
Qed.

(** X5. In every run of [commit_and_push] there is at most one
    [git commit], and no [git push] is made before it: a push, the plain one
    or the one with [--set-upstream], only follows a commit of the same
    run. *)
Theorem commit_and_push_commits_before_it_pushes
    (path message : str) (signoff : bool) (branch : option str) (remote : str)
    (push allow_main_push generate_if_empty staged_only_for_gen dry_run : bool)
    (language model : option str) (temperature : option float) (st st' : St) r :
  commit_and_push host cfg path message signoff branch remote push allow_main_push
    generate_if_empty staged_only_for_gen dry_run language model temperature st = (r, st') ->
  exists evs, trace st' = trace st ++ evs
              /\ observe commit_then_push false evs <> None.
Proof.
  intros E.
  assert (H : respects commit_then_push false
            (commit_and_push host cfg path message signoff branch remote push
               allow_main_push generate_if_empty staged_only_for_gen dry_run
               language model temperature) (fun _ _ => True)).
  { unfold commit_and_push. stepper. all: name_commit. all: stepper. }
  destruct (H _ _ _ E) as (evs & s' & T & O & _). exists evs. split; congruence.
Qed.

(** X6. With [push] unset, no run of [commit_and_push] calls [git push] or
    [git remote]: the remote is not even looked up. *)
Theorem commit_and_push_without_push_stays_local
    (path message : str) (signoff : bool) (branch : option str) (remote : str)
    (allow_main_push generate_if_empty staged_only_for_gen dry_run : bool)
    (language model : option str) (temperature : option float) (st st' : St) r :
  commit_and_push host cfg path message signoff branch remote false allow_main_push
    generate_if_empty staged_only_for_gen dry_run language model temperature st = (r, st') ->
  exists evs, trace st' = trace st ++ evs
    /\ forallb (fun e => negb (git_among ["push"; "remote"]%string e)) evs = true.
Proof.
  apply respects_only. unfold commit_and_push.
  stepper. all: name_commit. all: stepper.
Qed.

(** X7. When the message is not blank, or [generate_if_empty] is unset, no
    run of [commit_and_push] reads the environment or sends a completion
    request: the diff leaves the machine only for a message that has to be
    generated. *)
Theorem commit_and_push_keeps_a_given_message_local
    (path message : str) (signoff : bool) (branch : option str) (remote : str)
    (push allow_main_push generate_if_empty staged_only_for_gen dry_run : bool)
    (language model : option str) (temperature : option float) (st st' : St) r :
  strip message <> [] \/ generate_if_empty = false ->
  commit_and_push host cfg path message signoff branch remote push allow_main_push
    generate_if_empty staged_only_for_gen dry_run language model temperature st = (r, st') ->
  exists evs, trace st' = trace st ++ evs
    /\ forallb (fun e => negb (is_chat e) && negb (is_getenv e)) evs = true.
Proof.
  intros Hgiven.
  assert (Hoff : negb (truthy (strip message)) && generate_if_empty = false).
  { destruct Hgiven as [H | ->]; [| apply andb_false_r].
    now rewrite (truthy_cons _ H). }
  apply respects_only. unfold commit_and_push.
  repeat first
    [ apply respects_ret; exact I
    | apply respects_raise; exact I
    | split_if
    | eapply respects_bind;
      [ first [ now apply respects_given_message | component ]
      | intros ? ? -> | intros ? ? ->; exact I ] ].
Qed.

(** ** The helpers *)

(** X8. [check_allowed] raises, and then the access error that names the
    path, exactly when some root is configured and the string form of the
    path starts with the string form of none of them. *)
Theorem check_allowed_denies_exactly_the_rest (path : str) (st : St) :
  check_allowed cfg path st = (inl (AccessDenied path), st)
  <-> ALLOWED_ROOTS cfg <> []
      /\ forall root rest, In root (ALLOWED_ROOTS cfg) -> path <> root ++ rest.
Proof.
  unfold check_allowed. destruct (ALLOWED_ROOTS cfg) as [| r0 roots] eqn:E.
  - split; [discriminate | intros [H _]; congruence].
  - rewrite <- no_root_is_a_prefix.
    destruct (existsb (fun root => startswith path root) (r0 :: roots));
      cbn [negb]; split.
    + discriminate.
    + intros [_ H]. discriminate.
    + intros _. split; [discriminate | reflexivity].
    + reflexivity.
Qed.

(** X9. For a path outside every configured root, [ensure_repo] raises the
    access error for the resolved path before any subprocess is run: the
    state, and with it the list of calls, is the one it started from. *)
Theorem ensure_repo_denies_before_git (path : str) (st : St) :
  ALLOWED_ROOTS cfg <> [] ->
  (forall root rest, In root (ALLOWED_ROOTS cfg) ->
     path_resolve host path (world st) <> root ++ rest) ->
  ensure_repo host cfg path st
  = (inl (AccessDenied (path_resolve host path (world st))), st).
Proof.
  intros Hne Hno. unfold ensure_repo, bind at 1, resolve.
  apply bind_inl. unfold check_allowed.
  destruct (ALLOWED_ROOTS cfg) as [| r0 roots]; [congruence |].
  apply no_root_is_a_prefix in Hno. now rewrite Hno.
Qed.

(** X10. The text that [run_git] returns has no whitespace at either end:
    stripping it again changes nothing, and neither its first nor its last
    character is a whitespace character. *)
Theorem run_git_result_is_stripped (args : list str) (cwd out : str) (st st' : St) :
  run_git host args cwd st = (inr out, st') ->
  strip out = out
  /\ (forall c m, out = c :: m -> isspace c = false)
  /\ (forall m c, out = m ++ [c] -> isspace c = false).
Proof.
  unfold run_git. intros H. apply bind_inv in H as (cp & st1 & _ & H).
  destruct (negb (returncode cp =? 0)%Z); [discriminate |].
  unfold ret in H. inversion H; subst. unfold strip. split.
  - apply strip_by_idempotent.
  - apply strip_by_ends.
Qed.

(** X11. When [git remote] succeeds and prints one name per line, each name
    not empty and free of whitespace, [has_remote] answers whether the
    remote is one of these names, after the one call [git remote]. *)
Theorem has_remote_finds_the_listed_names (repo remote : str) (names : list str)
    (err : str) (st : St) (w : World) :
  forallb plain_name names = true ->
  subprocess_run host [lit "git"; lit "remote"] repo (world st)
    = (inr {| returncode := 0;
              stdout := concat (map (fun n => n ++ [NL]) names);
              stderr := err |}, w) ->
  has_remote host repo remote st
  = (inr (str_in remote names),
     {| world := w; trace := trace st ++ [EvRun [lit "git"; lit "remote"] repo] |}).
Proof.
  intros Hnames Hrun. unfold has_remote, run_git, bind, run.
  rewrite Hrun. cbn [returncode stdout Z.eqb negb]. unfold ret. do 3 f_equal.
  destruct names as [| x names]; [reflexivity |].
  rewrite listing_join by discriminate.
  destruct (join_ends _ Hnames) as [Jh Jl].
  unfold strip.
  rewrite <- (app_nil_l (join [NL] (x :: names) ++ [NL])).
  rewrite (strip_by_padded isspace [] [NL] _ eq_refl eq_refl Jh Jl).
  now rewrite splitlines_join.
Qed.

(** ** [get_git_diff] *)

(** X12. [get_git_diff] never returns the empty text: without a diff it
    returns the notice that nothing changed, and redaction and truncation
    leave a diff that is not empty not empty. *)
Theorem get_git_diff_is_never_empty (path : str) (staged_only : bool)
    (context_lines : Z) (filter_path : option str) (max_chars : option Z)
    (st st' : St) (text : str) :
  get_git_diff host cfg path staged_only context_lines filter_path max_chars st
    = (inr text, st') ->
  text <> [].
Proof.
  unfold get_git_diff. intros H.
  apply bind_inv in H as (repo & st1 & _ & H).
  apply bind_inv in H as (diff & st2 & _ & H).
  destruct diff as [| c diff]; cbn [truthy negb] in H; unfold ret in H; inversion H.
  - discriminate.
  - intros E. apply truncate_nil_inv, redact_secrets_nil_inv in E. discriminate.
Qed.

(** X13. When [git diff] succeeds and prints nothing but whitespace,
    [get_git_diff] returns the notice that no changes were detected, after
    the one call [git diff]. *)
Theorem get_git_diff_blank_diff_is_no_change (path : str) (staged_only : bool)
    (context_lines : Z) (filter_path : option str) (max_chars : option Z)
    (st st1 : St) (repo : str) (cp : CompletedProcess) (w : World) :
  ensure_repo host cfg path st = (inr repo, st1) ->
  subprocess_run host (lit "git" :: diff_args staged_only context_lines filter_path)
    repo (world st1) = (inr cp, w) ->
  returncode cp = 0%Z ->
  forallb isspace (stdout cp) = true ->
  get_git_diff host cfg path staged_only context_lines filter_path max_chars st
  = (inr NoChangesDetected,
     {| world := w;
        trace := trace st1
                 ++ [EvRun (lit "git" :: diff_args staged_only context_lines filter_path)
                       repo] |}).
Proof.
  intros Hrepo Hrun Hcode Hblank. unfold get_git_diff.
  rewrite (bind_inr _ _ _ _ _ Hrepo).
  unfold run_git, bind, run. rewrite Hrun, Hcode. cbn [Z.eqb negb].
  unfold ret, strip. rewrite (strip_by_all _ _ Hblank). reflexivity.
Qed.

(** X14. When the redacted diff is no longer than the cap in force,
    [get_git_diff] returns exactly the redacted diff, with no marker. *)
Theorem get_git_diff_returns_a_short_diff_redacted (path : str) (staged_only : bool)
    (context_lines : Z) (filter_path : option str) (max_chars : option Z)
    (st st1 st2 : St) (repo diff : str) :
  ensure_repo host cfg path st = (inr repo, st1) ->
  run_git host (diff_args staged_only context_lines filter_path) repo st1
    = (inr diff, st2) ->
  diff <> [] ->
  (Z.of_nat (length (redact_secrets diff)) <= diff_limit cfg max_chars)%Z ->
  get_git_diff host cfg path staged_only context_lines filter_path max_chars st
  = (inr (redact_secrets diff), st2).
Proof.
  intros Hrepo Hdiff Hne Hfit. unfold get_git_diff.
  rewrite (bind_inr _ _ _ _ _ Hrepo), (bind_inr _ _ _ _ _ Hdiff).
  rewrite (truthy_cons _ Hne). cbn [negb]. unfold truncate.
  destruct (Z.ltb_spec (diff_limit cfg max_chars)
              (Z.of_nat (length (redact_secrets diff)))); [lia | reflexivity].
Qed.

(** ** [commit_and_push] *)

(** X15. On a clean working tree, where [git status --porcelain] prints
    nothing, [commit_and_push] returns the notice that there is nothing to
    commit after exactly two calls, the repository check and the status,
    whatever the other arguments are. *)
Theorem commit_and_push_clean_tree
    (path message : str) (signoff : bool) (branch : option str) (remote : str)
    (push allow_main_push generate_if_empty staged_only_for_gen dry_run : bool)
    (language model : option str) (temperature : option float)
    (st st1 st2 : St) (repo : str) :
  ensure_repo host cfg path st = (inr repo, st1) ->
  run_git host [lit "status"; lit "--porcelain"] repo st1 = (inr [], st2) ->
  commit_and_push host cfg path message signoff branch remote push allow_main_push
    generate_if_empty staged_only_for_gen dry_run language model temperature st
  = (inr NothingToCommit, st2)
  /\ trace st2
     = trace st ++ [EvRun [lit "git"; lit "rev-parse"; lit "--show-toplevel"] repo;
                    EvRun [lit "git"; lit "status"; lit "--porcelain"] repo].
Proof.
  intros Hrepo Hstatus. split.
  - unfold commit_and_push.
    now rewrite (bind_inr _ _ _ _ _ Hrepo), (bind_inr _ _ _ _ _ Hstatus).
  - apply ensure_repo_inr in Hrepo as [_ T1]. apply run_git_trace in Hstatus.
    now rewrite Hstatus, T1, <- app_assoc.
Qed.

(** X16. With a message that is not blank, [push] unset and no dry run,
    [commit_and_push] commits with the stripped message, adding [--signoff]
    when asked to, and returns the text that the push was skipped; the
    commit is its last call. *)
Theorem commit_and_push_commits_the_given_message
    (path message : str) (signoff : bool) (branch : option str) (remote : str)
    (allow_main_push generate_if_empty staged_only_for_gen : bool)
    (language model : option str) (temperature : option float)
    (st st1 st2 st3 st4 : St) (repo status current_branch out : str) :
  ensure_repo host cfg path st = (inr repo, st1) ->
  run_git host [lit "status"; lit "--porcelain"] repo st1 = (inr status, st2) ->
  status <> [] ->
  resolve_branch host branch repo st2 = (inr current_branch, st3) ->
  strip message <> [] ->
  run_git host (commit_args (strip message) signoff) repo st3 = (inr out, st4) ->
  commit_and_push host cfg path message signoff branch remote false allow_main_push
    generate_if_empty staged_only_for_gen false language model temperature st
  = (inr (PushSkipped current_branch), st4)
  /\ trace st4
     = trace st3 ++ [EvRun (lit "git" :: commit_args (strip message) signoff) repo].
Proof.
  intros Hrepo Hstatus Hne Hbranch Hmsg Hcommit. split.
  - unfold commit_and_push.
    rewrite (bind_inr _ _ _ _ _ Hrepo), (bind_inr _ _ _ _ _ Hstatus).
    rewrite (truthy_cons _ Hne). cbn [negb].
    rewrite (bind_inr _ _ _ _ _ Hbranch). cbn [andb].
    unfold resolve_message. rewrite (truthy_cons _ Hmsg). cbn [negb andb].
    unfold bind at 1, ret at 1. rewrite (truthy_cons _ Hmsg). cbn [negb].
    now rewrite (bind_inr _ _ _ _ _ Hcommit).
  - now apply run_git_trace in Hcommit.
Qed.

(** X17. With a blank message and [generate_if_empty] unset,
    [commit_and_push] raises the error that a commit message is required,
    once the branch guard is passed and before any commit; with [dry_run]
    set as well. *)
Theorem commit_and_push_needs_a_message
    (path message : str) (signoff : bool) (branch : option str) (remote : str)
    (push allow_main_push staged_only_for_gen dry_run : bool)
    (language model : option str) (temperature : option float)
    (st st1 st2 st3 : St) (repo status current_branch : str) :
  ensure_repo host cfg path st = (inr repo, st1) ->
  run_git host [lit "status"; lit "--porcelain"] repo st1 = (inr status, st2) ->
  status <> [] ->
  resolve_branch host branch repo st2 = (inr current_branch, st3) ->
  push && negb allow_main_push && is_protected current_branch = false ->
  strip message = [] ->
  commit_and_push host cfg path message signoff branch remote push allow_main_push
    false staged_only_for_gen dry_run language model temperature st
  = (inl MessageRequired, st3).
Proof.
  intros Hrepo Hstatus Hne Hbranch Hgate Hmsg.
  unfold commit_and_push.
  rewrite (bind_inr _ _ _ _ _ Hrepo), (bind_inr _ _ _ _ _ Hstatus).
  rewrite (truthy_cons _ Hne). cbn [negb].
  rewrite (bind_inr _ _ _ _ _ Hbranch), Hgate.
  unfold resolve_message. rewrite Hmsg. cbn [truthy negb andb].
  reflexivity.
Qed.

(** X18. When the branch has an upstream and the push is accepted,
    [commit_and_push] makes, after the message is settled, exactly four
    calls in this order: the commit, [git remote], the query for the
    upstream and [git push remote branch] without [--set-upstream]; it
    returns the text that names the remote and the branch. *)
Theorem commit_and_push_pushes_to_the_upstream
    (path message : str) (signoff : bool) (branch : option str) (remote : str)
    (allow_main_push generate_if_empty staged_only_for_gen : bool)
    (language model : option str) (temperature : option float)
    (st st1 st2 st3 st4 st5 st6 st7 st8 : St)
    (repo status current_branch final_message out listing tracking pushed : str) :
  ensure_repo host cfg path st = (inr repo, st1) ->
  run_git host [lit "status"; lit "--porcelain"] repo st1 = (inr status, st2) ->
  status <> [] ->
  resolve_branch host branch repo st2 = (inr current_branch, st3) ->
  negb allow_main_push && is_protected current_branch = false ->
  resolve_message host cfg repo message generate_if_empty staged_only_for_gen
    language model temperature st3 = (inr (inr final_message), st4) ->
  final_message <> [] ->
  run_git host (commit_args final_message signoff) repo st4 = (inr out, st5) ->
  run_git host [lit "remote"] repo st5 = (inr listing, st6) ->
  str_in remote (splitlines listing) = true ->
  run_git host [lit "rev-parse"; lit "--abbrev-ref"; lit "--symbolic-full-name";
                lit "@{u}"] repo st6 = (inr tracking, st7) ->
  run_git host [lit "push"; remote; current_branch] repo st7 = (inr pushed, st8) ->
  commit_and_push host cfg path message signoff branch remote true allow_main_push
    generate_if_empty staged_only_for_gen false language model temperature st
  = (inr (Pushed remote current_branch), st8)
  /\ trace st8
     = trace st4
       ++ [EvRun (lit "git" :: commit_args final_message signoff) repo;
           EvRun [lit "git"; lit "remote"] repo;
           EvRun [lit "git"; lit "rev-parse"; lit "--abbrev-ref";
                  lit "--symbolic-full-name"; lit "@{u}"] repo;
           EvRun [lit "git"; lit "push"; remote; current_branch] repo].
Proof.
  intros Hrepo Hstatus Hne Hbranch Hgate Hmsg Hmne Hcommit Hremote Hin Hread Hpush.
  split.
  - unfold commit_and_push.
    rewrite (bind_inr _ _ _ _ _ Hrepo), (bind_inr _ _ _ _ _ Hstatus).
    rewrite (truthy_cons _ Hne). cbn [negb].
    rewrite (bind_inr _ _ _ _ _ Hbranch). cbn [andb]. rewrite Hgate.
    rewrite (bind_inr _ _ _ _ _ Hmsg), (truthy_cons _ Hmne). cbn [negb].
    rewrite (bind_inr _ _ _ _ _ Hcommit).
    rewrite (bind_inr _ _ _ _ _ (has_remote_found _ _ _ _ _ _ Hremote)), Hin.
    cbn [negb].
    assert (Hp : push_with_upstream host repo remote current_branch st6
                 = (inr pushed, st8)).
    { unfold push_with_upstream, try_except.
      now rewrite (bind_inr _ _ _ _ _ Hread), Hpush. }
    now rewrite (bind_inr _ _ _ _ _ Hp).
  - apply run_git_trace in Hcommit, Hremote, Hread, Hpush.
    rewrite Hpush, Hread, Hremote, Hcommit, <- !app_assoc. reflexivity.
Qed.

(** X19. When the query for the upstream fails, [commit_and_push] pushes
    with [--set-upstream] instead, as its fourth call after the message is
    settled; the run ends as that push ends: with the text that names the
    remote and the branch, or with the error of the push. *)
Theorem commit_and_push_sets_the_upstream
    (path message : str) (signoff : bool) (branch : option str) (remote : str)
    (allow_main_push generate_if_empty staged_only_for_gen : bool)
    (language model : option str) (temperature : option float)
    (st st1 st2 st3 st4 st5 st6 st7 st8 : St)
    (repo status current_branch final_message out listing : str)
    (e : exn) (res : exn + str) :
  ensure_repo host cfg path st = (inr repo, st1) ->
  run_git host [lit "status"; lit "--porcelain"] repo st1 = (inr status, st2) ->
  status <> [] ->
  resolve_branch host branch repo st2 = (inr current_branch, st3) ->
  negb allow_main_push && is_protected current_branch = false ->
  resolve_message host cfg repo message generate_if_empty staged_only_for_gen
    language model temperature st3 = (inr (inr final_message), st4) ->
  final_message <> [] ->
  run_git host (commit_args final_message signoff) repo st4 = (inr out, st5) ->
  run_git host [lit "remote"] repo st5 = (inr listing, st6) ->
  str_in remote (splitlines listing) = true ->
  run_git host [lit "rev-parse"; lit "--abbrev-ref"; lit "--symbolic-full-name";
                lit "@{u}"] repo st6 = (inl e, st7) ->
  run_git host [lit "push"; lit "--set-upstream"; remote; current_branch] repo st7
    = (res, st8) ->
  commit_and_push host cfg path message signoff branch remote true allow_main_push
    generate_if_empty staged_only_for_gen false language model temperature st
  = (match res with
     | inr _ => inr (Pushed remote current_branch)
     | inl failure => inl failure
     end, st8)
  /\ trace st8
     = trace st4
       ++ [EvRun (lit "git" :: commit_args final_message signoff) repo;
           EvRun [lit "git"; lit "remote"] repo;
           EvRun [lit "git"; lit "rev-parse"; lit "--abbrev-ref";
                  lit "--symbolic-full-name"; lit "@{u}"] repo;
           EvRun [lit "git"; lit "push"; lit "--set-upstream"; remote;
                  current_branch] repo].
Proof.
  intros Hrepo Hstatus Hne Hbranch Hgate Hmsg Hmne Hcommit Hremote Hin Hread Hpush.
  split.
  - unfold commit_and_push.
    rewrite (bind_inr _ _ _ _ _ Hrepo), (bind_inr _ _ _ _ _ Hstatus).
    rewrite (truthy_cons _ Hne). cbn [negb].
    rewrite (bind_inr _ _ _ _ _ Hbranch). cbn [andb]. rewrite Hgate.
    rewrite (bind_inr _ _ _ _ _ Hmsg), (truthy_cons _ Hmne). cbn [negb].
    rewrite (bind_inr _ _ _ _ _ Hcommit).
    rewrite (bind_inr _ _ _ _ _ (has_remote_found _ _ _ _ _ _ Hremote)), Hin.
    cbn [negb].
    assert (Hp : push_with_upstream host repo remote current_branch st6 = (res, st8)).
    { unfold push_with_upstream, try_except.
      now rewrite (bind_inl _ _ _ _ _ Hread), Hpush. }
    unfold bind at 1. rewrite Hp. now destruct res.
  - apply run_git_trace in Hcommit, Hremote, Hread, Hpush.
    rewrite Hpush, Hread, Hremote, Hcommit, <- !app_assoc. reflexivity.
Qed.

(** X20. When the message is to be generated and the answer of the
    completion service is empty once whitespace and backticks are removed
    at its ends, [commit_and_push] raises the error that a commit message is
    required; by then the diff was read and the request sent, and nothing
    was committed. *)
Theorem commit_and_push_rejects_a_blank_answer
    (path message : str) (signoff : bool) (branch : option str) (remote : str)
    (push allow_main_push staged_only_for_gen dry_run : bool)
    (language model : option str) (temperature : option float)
    (st st1 st2 st3 st4 : St) (repo status current_branch diff key content : str)
    (w : World) :
  strip message = [] ->
  ensure_repo host cfg path st = (inr repo, st1) ->
  run_git host [lit "status"; lit "--porcelain"] repo st1 = (inr status, st2) ->
  status <> [] ->
  resolve_branch host branch repo st2 = (inr current_branch, st3) ->
  push && negb allow_main_push && is_protected current_branch = false ->
  run_git host (plain_diff_args staged_only_for_gen) repo st3 = (inr diff, st4) ->
  diff <> [] ->
  os_getenv host (lit "OPENAI_API_KEY") (world st4) = Some key ->
  key <> [] ->
  chat_completions_create host
    (request_of host key (truncate (MAX_DIFF_CHARS cfg) (redact_secrets diff)) language
       (or_else model (DEFAULT_OPENAI_MODEL cfg))
       (match temperature with None => OPENAI_TEMPERATURE cfg | Some t => t end))
    (world st4) = (inr content, w) ->
  cleaned content = [] ->
  exists st5,
    commit_and_push host cfg path message signoff branch remote push allow_main_push
      true staged_only_for_gen dry_run language model temperature st
    = (inl MessageRequired, st5)
    /\ world st5 = w
    /\ exists req, trace st5
         = trace st3 ++ [EvRun (lit "git" :: plain_diff_args staged_only_for_gen) repo;
                         EvGetenv (lit "OPENAI_API_KEY"); EvChat req].
Proof.
  intros Hmsg Hrepo Hstatus Hne Hbranch Hgate Hdiff Hdne Hkey Hkne Hchat Hblank.
  eexists. split; [| split].
  - unfold commit_and_push.
    rewrite (bind_inr _ _ _ _ _ Hrepo), (bind_inr _ _ _ _ _ Hstatus).
    rewrite (truthy_cons _ Hne). cbn [negb].
    rewrite (bind_inr _ _ _ _ _ Hbranch), Hgate.
    unfold resolve_message. rewrite Hmsg. cbn [truthy negb andb].
    unfold bind at 1. unfold bind at 1. rewrite Hdiff.
    rewrite (truthy_cons _ Hdne). cbn [negb].
    unfold bind at 1.
    rewrite (generate_with_key _ _ _ _ _ _ _ _ _ Hkey Hkne Hchat).
    unfold ret at 1. rewrite Hblank. reflexivity.
  - reflexivity.
  - eexists. cbn [trace]. apply run_git_trace in Hdiff. rewrite Hdiff, <- app_assoc.
    reflexivity.
Qed.

(** ** [openai_generate_commit_message] *)

(** X21. When [OPENAI_API_KEY] is unset or empty,
    [openai_generate_commit_message] raises the error that the key is not
    set; reading the variable is its only call, and no request is sent. *)
Theorem openai_generate_commit_message_needs_the_key
    (diff : str) (language : option str) (model : str) (temperature : float) (st : St) :
  os_getenv host (lit "OPENAI_API_KEY") (world st) = None
  \/ os_getenv host (lit "OPENAI_API_KEY") (world st) = Some [] ->
  openai_generate_commit_message host diff language model temperature st
  = (inl MissingCredential,
     {| world := world st; trace := trace st ++ [EvGetenv (lit "OPENAI_API_KEY")] |}).
Proof.
  intros H. apply generate_without_key. now destruct H as [-> | ->].
Qed.

(** X22. When the completion request fails, [openai_generate_commit_message]
    ends with that very error, after one reading of the key and one
    request: it neither retries nor replaces the error. *)
Theorem openai_generate_commit_message_passes_on_the_failure
    (diff : str) (language : option str) (model : str) (temperature : float)
    (st : St) (key : str) (e : exn) (w : World) :
  os_getenv host (lit "OPENAI_API_KEY") (world st) = Some key ->
  key <> [] ->
  chat_completions_create host (request_of host key diff language model temperature)
    (world st) = (inl e, w) ->
  openai_generate_commit_message host diff language model temperature st
  = (inl e,
     {| world := w;
        trace := trace st ++ [EvGetenv (lit "OPENAI_API_KEY");
                              EvChat (request_of host key diff language model temperature)] |}).
Proof.
  intros Hkey Hne Hchat.
  unfold openai_generate_commit_message, bind, getenv.
  rewrite Hkey. cbn [truthy_opt]. rewrite (truthy_cons _ Hne). cbn [negb].
  destruct key as [| c key]; [congruence |]. cbn [or_else].
  unfold chat. cbn [world trace]. rewrite Hchat. now rewrite <- app_assoc.
Qed.

End Calls.

(** X23. The cleaning of the answer in [openai_generate_commit_message]
    removes a code fence: from whitespace, backticks, a text, backticks and
    whitespace, in this order, it keeps the text alone, provided the text
    neither starts nor ends with a whitespace character or a backtick. *)
Theorem cleaned_drops_the_fence (ws1 ticks1 body ticks2 ws2 : str) :
  forallb isspace ws1 = true -> forallb isspace ws2 = true ->
  forallb (fun c => Ascii.eqb c (chr 96)) ticks1 = true ->
  forallb (fun c => Ascii.eqb c (chr 96)) ticks2 = true ->
  (forall c m, body = c :: m -> isspace c = false /\ Ascii.eqb c (chr 96) = false) ->
  (forall m c, body = m ++ [c] -> isspace c = false /\ Ascii.eqb c (chr 96) = false) ->
  cleaned (ws1 ++ (ticks1 ++ body ++ ticks2) ++ ws2) = body.
Proof.
  intros Hw1 Hw2 Ht1 Ht2 Hh Hl.
  destruct (fenced_ends ticks1 body ticks2 Ht1 Ht2) as [Fh Fl].
  { intros c m E. now apply (Hh c m). }
  { intros m c E. now apply (Hl m c). }
  unfold cleaned, strip, strip_backticks.
  rewrite (strip_by_padded isspace ws1 ws2 _ Hw1 Hw2 Fh Fl).
  rewrite (strip_by_fixed isspace _ Fh Fl).
  rewrite (strip_by_padded _ ticks1 ticks2 body Ht1 Ht2).
  - apply strip_by_fixed.
    + intros c m E. now apply (Hh c m).
    + intros m c E. now apply (Hl m c).
  - intros c m E. now apply (Hh c m).
  - intros m c E. now apply (Hl m c).
Qed.

(** ** Redaction *)

(** X24. A text in which none of the five patterns matches anywhere is
    returned by [redact_secrets] as it is. *)
Theorem redact_secrets_keeps_text_without_matches (text : str) :
  forallb (fun rule => negb (re_search (fst rule) text)) SECRET_PATTERNS = true ->
  redact_secrets text = text.
Proof.
  intros H. cbn [forallb SECRET_PATTERNS fst] in H.
  repeat match type of H with
         | _ && _ = true => let H1 := fresh "H" in apply andb_prop in H as [H1 H]
         end.
  repeat match goal with
         | H : negb _ = true |- _ => apply negb_true_iff in H
         end.
  rewrite redact_secrets_rules.
  rewrite (re_sub_unchanged aws_re _ text) by assumption.
  rewrite (re_sub_unchanged api_key_re _ text) by assumption.
  rewrite (re_sub_unchanged bearer_re _ text) by assumption.
  rewrite (re_sub_unchanged password_re _ text) by assumption.
  now apply re_sub_unchanged.
Qed.

(** X25. Each of the last three rules of [SECRET_PATTERNS], taken alone, is
    idempotent on every text: substituting the bearer rule, the password
    rule or the secret rule a second time changes nothing. *)
Theorem last_three_rules_are_idempotent (text : str) :
  re_sub bearer_re (lit "authorization: Bearer ***")
    (re_sub bearer_re (lit "authorization: Bearer ***") text)
  = re_sub bearer_re (lit "authorization: Bearer ***") text
  /\ re_sub password_re (lit "password=***")
       (re_sub password_re (lit "password=***") text)
     = re_sub password_re (lit "password=***") text
  /\ re_sub secret_re (lit "secret=***") (re_sub secret_re (lit "secret=***") text)
     = re_sub secret_re (lit "secret=***") text.
Proof.
  repeat split.
  - apply re_sub_unchanged, no_match_search, bearer_no_match.
  - apply only_self_fixed; [reflexivity | discriminate | apply password_only_self].
  - apply only_self_fixed; [reflexivity | discriminate | apply secret_only_self].
Qed.

(** X26. [redact_secrets] returns the empty text for the empty text and for
    no other: redaction never deletes a whole diff. *)
Theorem redact_secrets_never_empties (text : str) :
  redact_secrets text = [] <-> text = [].
Proof.
  split; [apply redact_secrets_nil_inv | now intros ->].
Qed.

(** X27. The substitution of the password rule or of the secret rule
    replaces a whole assignment by the mask: the key in any mix of upper and
    lower case, whitespace, [=], whitespace, and a value that starts with a
    character that is no whitespace and runs on to the next space or line
    feed, or to the end.  Nothing of the value is left, and the scan goes on
    after it. *)
Theorem assignment_is_masked_whole (key : string) (mask K W1 W2 : str)
    (c : ascii) (v rest : str) :
  map tolower K = map tolower (lit key) ->
  forallb isspace W1 = true -> forallb isspace W2 = true ->
  isspace c = false -> forallb not_space_nl v = true ->
  stops sp_or_nl rest = true ->
  re_sub (assignment_re key) mask (K ++ W1 ++ lit "=" ++ W2 ++ c :: v ++ rest)
  = mask ++ re_sub (assignment_re key) mask rest.
Proof.
  intros HK H1 H2 Hc Hv Hrest.
  replace (K ++ W1 ++ lit "=" ++ W2 ++ c :: v ++ rest)
    with ((K ++ W1 ++ lit "=" ++ W2 ++ c :: v) ++ rest)
    by (rewrite <- ?app_assoc; cbn [app]; rewrite <- ?app_assoc; reflexivity).
  apply re_sub_match.
  - intros E. apply (f_equal (@length ascii)) in E.
    rewrite !length_app in E. cbn [length] in E. lia.
  - rewrite <- ?app_assoc. cbn [app]. rewrite <- ?app_assoc.
    unfold assignment_re, iword. rewrite iword_run by assumption.
    cbn [app]. unfold star at 1. cbn [re_match cls lo hi].
    apply greedy_run; [assumption | reflexivity | lia |].
    rewrite iword_run by reflexivity.
    cbn [re_match star plus cls lo hi].
    apply greedy_run; [assumption | cbn [stops app]; now rewrite Hc | lia |].
    change (c :: v ++ rest) with ((c :: v) ++ rest).
    apply greedy_run.
    + cbn [forallb]. now rewrite (not_space_is_value c Hc).
    + destruct rest; [reflexivity |]. cbn [stops] in *. exact Hrest.
    + cbn [length]. lia.
    + reflexivity.
Qed.

(** ** The properties on the small repository *)

Lemma get_git_diff_only_reads_witness :
  exists evs,
    trace (snd (get_git_diff Toy.host Toy.cfg (lit ".") true 3 None None
                  (Toy.start Toy.repo0)))
    = trace (Toy.start Toy.repo0) ++ evs
    /\ forallb (git_among ["rev-parse"; "diff"]%string) evs = true.
Proof.
  eapply (get_git_diff_only_reads Toy.host Toy.cfg (lit ".") true 3 None None).
  apply surjective_pairing.
Defined.

Lemma stage_all_only_adds_witness :
  exists evs,
    trace (snd (stage_all Toy.host Toy.cfg (lit ".") (Some (lit "*.py"))
                  (Toy.start Toy.repo0)))
    = trace (Toy.start Toy.repo0) ++ evs
    /\ forallb (git_among ["rev-parse"; "add"]%string) evs = true.
Proof.
  eapply (stage_all_only_adds Toy.host Toy.cfg (lit ".") (Some (lit "*.py"))).
  apply surjective_pairing.
Defined.

Lemma generate_commit_message_only_reads_and_prints_witness :
  exists evs,
    trace (snd Toy.describe) = trace (Toy.start Toy.repo0) ++ evs
    /\ forallb (fun e => git_among ["rev-parse"; "diff"]%string e || is_print e) evs
       = true.
Proof.
  eapply (generate_commit_message_only_reads_and_prints Toy.host Toy.cfg (lit ".") true
            None None None).
  apply surjective_pairing.
Defined.

Lemma commit_and_push_dry_run_only_reads_witness :
  exists evs,
    trace (snd (commit_and_push Toy.host Toy.cfg (lit ".") (lit "  ") false None
                  (lit "origin") true false true true true None None None
                  (Toy.start Toy.repo0)))
    = trace (Toy.start Toy.repo0) ++ evs
    /\ forallb read_only evs = true.
Proof.
  eapply (commit_and_push_dry_run_only_reads Toy.host Toy.cfg (lit ".") (lit "  ")
            false None (lit "origin") true false true true None None None).
  apply surjective_pairing.
Defined.

Lemma commit_and_push_commits_before_it_pushes_witness :
  exists evs,
    trace (snd (commit_and_push Toy.host Toy.cfg (lit ".") (lit "feat: x") false None
                  (lit "origin") true false true true false None None None
                  (Toy.start Toy.repo0)))
    = trace (Toy.start Toy.repo0) ++ evs
    /\ observe commit_then_push false evs <> None.
Proof.
  eapply (commit_and_push_commits_before_it_pushes Toy.host Toy.cfg (lit ".")
            (lit "feat: x") false None (lit "origin") true false true true false
            None None None).
  apply surjective_pairing.
Defined.

Lemma commit_and_push_without_push_stays_local_witness :
  exists evs,
    trace (snd (commit_and_push Toy.host Toy.cfg (lit ".") (lit "feat: x") false None
                  (lit "origin") false false true true false None None None
                  (Toy.start Toy.repo0)))
    = trace (Toy.start Toy.repo0) ++ evs
    /\ forallb (fun e => negb (git_among ["push"; "remote"]%string e)) evs = true.
Proof.
  eapply (commit_and_push_without_push_stays_local Toy.host Toy.cfg (lit ".")
            (lit "feat: x") false None (lit "origin") false true true false
            None None None).
  apply surjective_pairing.
Defined.

Lemma commit_and_push_keeps_a_given_message_local_witness :
  exists evs,
    trace (snd (commit_and_push Toy.host Toy.cfg (lit ".") (lit "feat: x") false None
                  (lit "origin") true false true true false None None None
                  (Toy.start Toy.repo0)))
    = trace (Toy.start Toy.repo0) ++ evs
    /\ forallb (fun e => negb (is_chat e) && negb (is_getenv e)) evs = true.
Proof.
  eapply (commit_and_push_keeps_a_given_message_local Toy.host Toy.cfg (lit ".")
            (lit "feat: x") false None (lit "origin") true false true true false
            None None None).
  - left. vm_compute. discriminate.
  - apply surjective_pairing.
Defined.

Lemma ensure_repo_denies_before_git_witness :
  ensure_repo Toy.host Toy.cfg_rooted (lit "/etc") (Toy.start Toy.repo0)
  = (inl (AccessDenied (lit "/etc")), Toy.start Toy.repo0).
Proof.
  apply (ensure_repo_denies_before_git Toy.host Toy.cfg_rooted (lit "/etc")
           (Toy.start Toy.repo0)).
  - discriminate.
  - intros root rest [<- | []] E. vm_compute in E. discriminate.
Defined.

Lemma run_git_result_is_stripped_witness :
  strip (lit "feature") = lit "feature"
  /\ (forall c m, lit "feature" = c :: m -> isspace c = false)
  /\ (forall m c, lit "feature" = m ++ [c] -> isspace c = false).
Proof.
  refine (run_git_result_is_stripped Toy.host
            [lit "rev-parse"; lit "--abbrev-ref"; lit "HEAD"] (lit ".") (lit "feature")
            (Toy.start Toy.repo0) _ _).
  reflexivity.
Defined.

Lemma has_remote_finds_the_listed_names_witness :
  fst (has_remote Toy.host (lit ".") (lit "origin") (Toy.start Toy.repo0)) = inr true.
Proof.
  refine (f_equal fst
    (has_remote_finds_the_listed_names Toy.host (lit ".") (lit "origin")
       [lit "origin"] [] (Toy.start Toy.repo0) Toy.repo0 _ _)).
  - reflexivity.
  - reflexivity.
Defined.

Lemma get_git_diff_is_never_empty_witness :
  fst (get_git_diff Toy.host Toy.cfg (lit ".") true 3 None None (Toy.start Toy.repo0))
  = inr (lit "+password=***")
  /\ lit "+password=***" <> [].
Proof.
  split; [vm_compute; reflexivity |].
  refine (get_git_diff_is_never_empty Toy.host Toy.cfg (lit ".") true 3 None None
            (Toy.start Toy.repo0)
            (snd (get_git_diff Toy.host Toy.cfg (lit ".") true 3 None None
                    (Toy.start Toy.repo0)))
            (lit "+password=***") _).
  vm_compute. reflexivity.
Defined.

Lemma get_git_diff_blank_diff_is_no_change_witness :
  fst (get_git_diff Toy.host Toy.cfg (lit ".") true 3 None None
         (Toy.start Toy.repo_clean))
  = inr NoChangesDetected.
Proof.
  refine (f_equal fst
    (get_git_diff_blank_diff_is_no_change Toy.host Toy.cfg (lit ".") true 3 None None
       (Toy.start Toy.repo_clean) _ (lit ".") (Toy.ok [NL]) Toy.repo_clean _ _ _ _)).
  - reflexivity.
  - reflexivity.
  - reflexivity.
  - reflexivity.
Defined.

Lemma get_git_diff_returns_a_short_diff_redacted_witness :
  fst (get_git_diff Toy.host Toy.cfg (lit ".") true 3 None None (Toy.start Toy.repo0))
  = inr (redact_secrets (lit "+password=hunter2")).
Proof.
  refine (f_equal fst
    (get_git_diff_returns_a_short_diff_redacted Toy.host Toy.cfg (lit ".") true 3 None
       None (Toy.start Toy.repo0) _ _ (lit ".") (lit "+password=hunter2") _ _ _ _)).
  - reflexivity.
  - reflexivity.
  - discriminate.
  - vm_compute. discriminate.
Defined.

Lemma commit_and_push_clean_tree_witness :
  fst (commit_and_push Toy.host Toy.cfg (lit ".") (lit "feat: x") false None
         (lit "origin") true false true true false None None None
         (Toy.start Toy.repo_clean))
  = inr NothingToCommit.
Proof.
  refine (f_equal fst (proj1
    (commit_and_push_clean_tree Toy.host Toy.cfg (lit ".") (lit "feat: x") false None
       (lit "origin") true false true true false None None None
       (Toy.start Toy.repo_clean) _ _ (lit ".") _ _))).
  - reflexivity.
  - reflexivity.
Defined.

Lemma commit_and_push_commits_the_given_message_witness :
  fst (commit_and_push Toy.host Toy.cfg (lit ".") (lit " feat: x ") true None
         (lit "origin") false false true true false None None None
         (Toy.start Toy.repo0))
  = inr (PushSkipped (lit "feature")).
Proof.
  refine (f_equal fst (proj1
    (commit_and_push_commits_the_given_message Toy.host Toy.cfg (lit ".")
       (lit " feat: x ") true None (lit "origin") false true true None None None
       (Toy.start Toy.repo0) _ _ _ _ (lit ".") (lit "M  a.txt") (lit "feature") []
       _ _ _ _ _ _))).
  - reflexivity.
  - reflexivity.
  - discriminate.
  - reflexivity.
  - vm_compute. discriminate.
  - reflexivity.
Defined.

Lemma commit_and_push_needs_a_message_witness :
  fst (commit_and_push Toy.host Toy.cfg (lit ".") (lit "  ") false None
         (lit "origin") true false false true false None None None
         (Toy.start Toy.repo0))
  = inl MessageRequired.
Proof.
  refine (f_equal fst
    (commit_and_push_needs_a_message Toy.host Toy.cfg (lit ".") (lit "  ") false None
       (lit "origin") true false true false None None None
       (Toy.start Toy.repo0) _ _ _ (lit ".") (lit "M  a.txt") (lit "feature")
       _ _ _ _ _ _)).
  - reflexivity.
  - reflexivity.
  - discriminate.
  - reflexivity.
  - reflexivity.
  - reflexivity.
Defined.

Lemma commit_and_push_pushes_to_the_upstream_witness :
  fst (commit_and_push Toy.host Toy.cfg (lit ".") (lit "feat: x") false None
         (lit "origin") true false true true false None None None
         (Toy.start Toy.repo_tracking))
  = inr (Pushed (lit "origin") (lit "feature")).
Proof.
  refine (f_equal fst (proj1
    (commit_and_push_pushes_to_the_upstream Toy.host Toy.cfg (lit ".") (lit "feat: x")
       false None (lit "origin") false true true None None None
       (Toy.start Toy.repo_tracking) _ _ _ _ _ _ _ _
       (lit ".") (lit "M  a.txt") (lit "feature") (lit "feat: x") [] (lit "origin")
       (lit "origin/feature") []
       _ _ _ _ _ _ _ _ _ _ _ _))).
  - reflexivity.
  - reflexivity.
  - discriminate.
  - reflexivity.
  - reflexivity.
  - reflexivity.
  - discriminate.
  - reflexivity.
  - reflexivity.
  - reflexivity.
  - reflexivity.
  - reflexivity.
Defined.

Lemma commit_and_push_sets_the_upstream_witness :
  fst (commit_and_push Toy.host Toy.cfg (lit ".") (lit "feat: x") false None
         (lit "origin") true false true true false None None None
         (Toy.start Toy.repo0))
  = inr (Pushed (lit "origin") (lit "feature")).
Proof.
  refine (f_equal fst (proj1
    (commit_and_push_sets_the_upstream Toy.host Toy.cfg (lit ".") (lit "feat: x")
       false None (lit "origin") false true true None None None
       (Toy.start Toy.repo0) _ _ _ _ _ _ _ _
       (lit ".") (lit "M  a.txt") (lit "feature") (lit "feat: x") [] (lit "origin")
       (CommandFailed [lit "rev-parse"; lit "--abbrev-ref"; lit "--symbolic-full-name";
                       lit "@{u}"] (lit "fatal: no upstream configured"))
       (inr [])
       _ _ _ _ _ _ _ _ _ _ _ _))).
  - reflexivity.
  - reflexivity.
  - discriminate.
  - reflexivity.
  - reflexivity.
  - reflexivity.
  - discriminate.
  - reflexivity.
  - reflexivity.
  - reflexivity.
  - reflexivity.
  - reflexivity.
Defined.

Lemma commit_and_push_rejects_a_blank_answer_witness :
  exists st5,
    commit_and_push Toy.host Toy.cfg (lit ".") (lit "  ") false None (lit "origin")
      true false true true false None None None (Toy.start Toy.repo_fenced)
    = (inl MessageRequired, st5)
    /\ world st5 = Toy.repo_fenced
    /\ exists req, trace st5
         = trace (snd (resolve_branch Toy.host None (lit ".")
                         (snd (run_git Toy.host [lit "status"; lit "--porcelain"] (lit ".")
                                 (snd (ensure_repo Toy.host Toy.cfg (lit ".")
                                         (Toy.start Toy.repo_fenced)))))))
           ++ [EvRun (lit "git" :: plain_diff_args true) (lit ".");
               EvGetenv (lit "OPENAI_API_KEY"); EvChat req].
Proof.
  refine (commit_and_push_rejects_a_blank_answer Toy.host Toy.cfg (lit ".") (lit "  ")
            false None (lit "origin") true false true false None None None
            (Toy.start Toy.repo_fenced) _ _ _ _
            (lit ".") (lit "M  a.txt") (lit "feature") (lit "+password=hunter2")
            (lit "sk-test") (lit "``` ```") Toy.repo_fenced
            _ _ _ _ _ _ _ _ _ _ _ _).
  - reflexivity.
  - reflexivity.
  - reflexivity.
  - discriminate.
  - reflexivity.
  - reflexivity.
  - reflexivity.
  - discriminate.
  - reflexivity.
  - discriminate.
  - reflexivity.
  - reflexivity.
Defined.

Lemma openai_generate_commit_message_needs_the_key_witness :
  fst (openai_generate_commit_message Toy.host (lit "+x") None (lit "gpt-4o-mini") 20
         (Toy.start Toy.repo_no_key))
  = inl MissingCredential.
Proof.
  refine (f_equal fst
    (openai_generate_commit_message_needs_the_key Toy.host (lit "+x") None
       (lit "gpt-4o-mini") 20 (Toy.start Toy.repo_no_key) _)).
  left. reflexivity.
Defined.

Lemma openai_generate_commit_message_passes_on_the_failure_witness :
  fst (openai_generate_commit_message Toy.host_offline (lit "+x") None
         (lit "gpt-4o-mini") 20 (Toy.start Toy.repo0))
  = inl (OtherError (lit "APIConnectionError")).
Proof.
  refine (f_equal fst
    (openai_generate_commit_message_passes_on_the_failure Toy.host_offline (lit "+x")
       None (lit "gpt-4o-mini") 20 (Toy.start Toy.repo0) (lit "sk-test")
       (OtherError (lit "APIConnectionError")) Toy.repo0 _ _ _)).
  - reflexivity.
  - discriminate.
  - reflexivity.
Defined.

Lemma cleaned_drops_the_fence_witness :
  cleaned ([NL] ++ (lit "```" ++ lit "feat: x" ++ lit "```") ++ [NL; SP])
  = lit "feat: x".
Proof.
  apply (cleaned_drops_the_fence [NL] (lit "```") (lit "feat: x") (lit "```") [NL; SP]).
  - reflexivity.
  - reflexivity.
  - reflexivity.
  - reflexivity.
  - intros c m E. inversion E. split; reflexivity.
  - intros m c E. change (lit "feat: x") with (lit "feat: " ++ ["x"%char]) in E.
    apply app_inj_tail in E as [_ <-]. split; reflexivity.
Defined.

Lemma redact_secrets_keeps_text_without_matches_witness :
  redact_secrets (lit "+fix typo in README") = lit "+fix typo in README".
Proof.
  apply redact_secrets_keeps_text_without_matches. vm_compute. reflexivity.
Defined.

Lemma assignment_is_masked_whole_witness :
  re_sub (assignment_re "password") (lit "password=***")
    (lit "PassWord" ++ [SP] ++ lit "=" ++ [SP] ++ "h"%char :: lit "unter2"
     ++ NL :: lit "next")
  = lit "password=***"
    ++ re_sub (assignment_re "password") (lit "password=***") (NL :: lit "next").
Proof.
  apply (assignment_is_masked_whole "password" (lit "password=***") (lit "PassWord")
           [SP] [SP] "h"%char (lit "unter2") (NL :: lit "next")).
  - vm_compute. reflexivity.
  - reflexivity.
  - reflexivity.
  - reflexivity.
  - vm_compute. reflexivity.
  - reflexivity.
Defined.
